(** * A REST address book over an object-relational store: server.py

    The development embeds [server.py] shallowly.  Python values that travel
    through the handlers (JSON bodies, [to_dict] results, entity instances)
    are the inductive type [value]; exceptions are a class and a message;
    code that may raise lives in [outcome]; code that also reads or writes
    the database lives in the state-and-exception monad [M].

    [server.py] delegates persistence to pony.orm and the address check to
    the [validate_email] package.  The object-relational layer is modelled in
    [Module Pony] (tables, link tables, sessions) and [Module Entity] (what
    an entity class can do) from the behaviour pony.orm documents: attribute
    validation, [Entity[pk]], [Set.add], [delete], [to_dict], [db_session].
    What the libraries leave to their own internals is the record
    [externals], over which every definition is parametric.

    Modelling conventions: integers are unbounded; a string is a sequence of
    characters with codes below 256; JSON numbers are integers; a Python
    [dict] is an association list in insertion order. *)

From stdpp Require Import gmap strings list fin_maps sorting pretty.
From Stdlib Require Import ZArith Lia Ascii.

Set Warnings "-register-all".
Open Scope Z_scope.

(** ** Python values *)

Inductive model := Person | Group | AddressBook.

#[global] Instance model_eq_dec : EqDecision model.
Proof. solve_decision. Defined.

(** Lower-cased [__name__] is the URL prefix; [__name__] appears in messages. *)
Definition model_name (m : model) : string :=
  match m with
  | Person => "Person"
  | Group => "Group"
  | AddressBook => "AddressBook"
  end.

(** A value is what [request.json()] parses, what [to_dict] returns, or an
    entity instance ([isinstance(e, db.Entity)]).  An instance carries its
    model, its primary key and its loaded scalar attributes. *)
Inductive value :=
| VNone
| VBool (b : bool)
| VInt (n : Z)
| VStr (s : string)
| VList (l : list value)
| VDict (d : list (string * value))
| VEntity (m : model) (pk : Z) (vals : list (string * value)).

Abbreviation pydict := (list (string * value)).

(** [d.get(k)]: the first binding of [k]. *)
Fixpoint dict_get {A} (d : list (string * A)) (k : string) : option A :=
  match d with
  | [] => None
  | (k', v) :: d' => if String.eqb k' k then Some v else dict_get d' k
  end.

Definition dict_keys {A} (d : list (string * A)) : list string := fst <$> d.

(** ** Exceptions *)

Inductive exn_class :=
| Error            (* class Error(Exception) of server.py *)
| AssertionError
| KeyError
| ValueError
| TypeError
| ObjectNotFound   (* pony.orm.core.ObjectNotFound *)
| IntegrityError.  (* a UNIQUE or PRIMARY KEY violation reported at flush *)

#[global] Instance exn_class_eq_dec : EqDecision exn_class.
Proof. solve_decision. Defined.

Record exn := Exn { exn_cls : exn_class; exn_msg : string }.

#[global] Instance exn_eq_dec : EqDecision exn.
Proof. solve_decision. Defined.

(** [str(ex)] *)
Definition str (ex : exn) : string := exn_msg ex.

Inductive outcome (A : Type) :=
| Return (a : A)
| Raise (e : exn).
Arguments Return {A} a.
Arguments Raise {A} e.

#[global] Instance outcome_ret : MRet outcome := @Return.
#[global] Instance outcome_bind : MBind outcome :=
  λ A B f x, match x with Return a => f a | Raise e => Raise e end.

Definition succeeded {A} (x : outcome A) : bool :=
  match x with Return _ => true | Raise _ => false end.

(** ** What the libraries decide *)

Record externals := {
  (** [validate_email.validate_email(e)] with its default arguments: a
      syntactic check, which may also raise on a value it cannot handle. *)
  validate_email : value → outcome bool;
  (** pony's conversion of a primary-key value that is not a Python [int]. *)
  int_of_key : value → outcome Z;
  (** Python's [int(s)] on a string that is not a plain decimal numeral. *)
  int_of_str : string → outcome Z;
  (** names that every [db.Entity] class has besides its declared
      attributes ([select], [get], ...). *)
  entity_api : string → bool
}.

(** ** validate_emails *)

(** [all(f(e) for e in l)]: stops at the first falsy result. *)
Fixpoint all_ (f : value → outcome bool) (l : list value) : outcome bool :=
  match l with
  | [] => Return true
  | e :: l' => b ← f e; if b : bool then all_ f l' else Return false
  end.

Definition validate_emails (ext : externals) (emails : value) : outcome bool :=
  match emails with
  | VList l =>
      if (length l <? 1)%nat then Return false
      else if (10 <? length l)%nat then Return false
      else all_ (validate_email ext) l
  | _ => Return false
  end.

(** ** State and exceptions

    [M S A] is code that runs on a state [S] and returns or raises; the
    state at the moment of a raise is kept, so that [db_session] can decide
    what survives. *)

Definition M (S A : Type) : Type := S → outcome A * S.

Definition ret {S A} (a : A) : M S A := λ s, (Return a, s).
Definition raise {S A} (e : exn) : M S A := λ s, (Raise e, s).
Definition bind {S A B} (x : M S A) (f : A → M S B) : M S B :=
  λ s, match x s with
       | (Return a, s') => f a s'
       | (Raise e, s') => (Raise e, s')
       end.
Definition lift {S A} (x : outcome A) : M S A := λ s, (x, s).
Definition gets {S A} (f : S → A) : M S A := λ s, (Return (f s), s).
Definition modify {S} (f : S → S) : M S () := λ s, (Return (), f s).

Notation "x <- e ;; k" := (bind e (λ x, k))
  (at level 100, e at next level, right associativity).

(** ** pony.orm: attributes, tables and sessions *)

Module Pony.

(** How a class declares an attribute.  [unique=True] and [composite_key]
    are listed apart, as keys of the table. *)
Inductive attr_decl :=
| PrimaryKey                                      (* the implicit id = PrimaryKey(int, auto=True) *)
| Required_str (max_len : nat)                    (* Required(str, max_len) *)
| Required_Json (py_check : value → outcome bool) (* Required(Json, py_check=...) *)
| SetOf (py_type : model).                        (* Set(py_type) *)

(** An entity instance: [VEntity] taken apart. *)
Record instance := Instance { i_model : model; i_pk : Z; i_vals : pydict }.

(** A table: the scalar attributes of each row under its primary key, and
    the largest key the table has handed out (AUTOINCREMENT). *)
Record table_t := Table { rows : gmap Z pydict; seq : Z }.

(** The three many-to-many relationships, each stored as a link table of
    pairs: Person-Group, Person-AddressBook, Group-AddressBook. *)
Inductive relation := PG | PA | GA.

Record store := Store {
  person : table_t;
  group : table_t;
  addressbook : table_t;
  person_group : gset (Z * Z);
  person_addressbook : gset (Z * Z);
  group_addressbook : gset (Z * Z)
}.

Definition empty_table : table_t := Table ∅ 0.
Definition empty : store :=
  Store empty_table empty_table empty_table ∅ ∅ ∅.

Definition table (s : store) (m : model) : table_t :=
  match m with
  | Person => person s
  | Group => group s
  | AddressBook => addressbook s
  end.

Definition set_table (s : store) (m : model) (t : table_t) : store :=
  match m with
  | Person => Store t (group s) (addressbook s) (person_group s) (person_addressbook s) (group_addressbook s)
  | Group => Store (person s) t (addressbook s) (person_group s) (person_addressbook s) (group_addressbook s)
  | AddressBook => Store (person s) (group s) t (person_group s) (person_addressbook s) (group_addressbook s)
  end.

Definition links (s : store) (r : relation) : gset (Z * Z) :=
  match r with
  | PG => person_group s
  | PA => person_addressbook s
  | GA => group_addressbook s
  end.

Definition set_links (s : store) (r : relation) (l : gset (Z * Z)) : store :=
  match r with
  | PG => Store (person s) (group s) (addressbook s) l (person_addressbook s) (group_addressbook s)
  | PA => Store (person s) (group s) (addressbook s) (person_group s) l (group_addressbook s)
  | GA => Store (person s) (group s) (addressbook s) (person_group s) (person_addressbook s) l
  end.

(** The link table behind a [Set(target)] attribute of [m], and whether the
    owner is the first component of its pairs.  pony pairs a [Set] with the
    one [Set] of the target class that points back. *)
Definition link_of (m target : model) : option (relation * bool) :=
  match m, target with
  | Person, Group => Some (PG, true)
  | Group, Person => Some (PG, false)
  | Person, AddressBook => Some (PA, true)
  | AddressBook, Person => Some (PA, false)
  | Group, AddressBook => Some (GA, true)
  | AddressBook, Group => Some (GA, false)
  | _, _ => None
  end.

Definition orient (fwd : bool) (owner item : Z) : Z * Z :=
  if fwd then (owner, item) else (item, owner).

Definition owner_of (fwd : bool) (p : Z * Z) : Z := if fwd then p.1 else p.2.
Definition item_of (fwd : bool) (p : Z * Z) : Z := if fwd then p.2 else p.1.

(** The members of a collection, as a set. *)
Definition members_of (l : gset (Z * Z)) (fwd : bool) (owner : Z) : gset Z :=
  set_map (item_of fwd) (filter (λ p, owner_of fwd p = owner) l).

(** [sorted(item.pk for item in collection)] *)
Definition related (s : store) (m target : model) (pk : Z) : list Z :=
  match link_of m target with
  | Some (r, fwd) => merge_sort Z.le (elements (members_of (links s r) fwd pk))
  | None => []
  end.

(** [collection.add(item)] on the [Set(target)] attribute of the [m]
    instance [owner]: set insertion into the link table. *)
Definition Set_add (m target : model) (owner item : Z) : M store () :=
  modify (λ s,
    match link_of m target with
    | Some (r, fwd) => set_links s r ({[ orient fwd owner item ]} ∪ links s r)
    | None => s
    end).

(** [attr.__set__(obj, ())]: the collection is emptied. *)
Definition Set_clear (m target : model) (owner : Z) (s : store) : store :=
  match link_of m target with
  | Some (r, fwd) => set_links s r (filter (λ p, owner_of fwd p ≠ owner) (links s r))
  | None => s
  end.

(** [str.strip()] on characters below 256. *)
Definition is_space (c : ascii) : bool :=
  bool_decide (nat_of_ascii c ∈ [9; 10; 11; 12; 13; 28; 29; 30; 31; 32; 133; 160]%nat).

Fixpoint lstrip (s : string) : string :=
  match s with
  | String c s' => if is_space c then lstrip s' else s
  | EmptyString => EmptyString
  end.

Definition strip (s : string) : string :=
  String.rev (lstrip (String.rev (lstrip s))).

(** Keys: an [int] is taken as it is, anything else goes through pony's
    converter. *)
Definition pk_of_key (ext : externals) (key : value) : outcome Z :=
  match key with
  | VInt n => Return n
  | _ => int_of_key ext key
  end.

(** [with db_session: body]: commit when the body returns, roll back when
    it raises. *)
Definition db_session {A} (body : M store A) : M store A :=
  λ s, match body s with
       | (Return a, s') => (Return a, s')
       | (Raise e, _) => (Raise e, s)
       end.

End Pony.

(** ** The entity classes of server.py *)

Definition max_name_len : nat := 255.

(** [class Person], [class Group], [class AddressBook]: the attributes in
    declaration order, after the implicit [id]. *)
Definition attrs (ext : externals) (m : model) : list (string * Pony.attr_decl) :=
  match m with
  | Person =>
      [("id", Pony.PrimaryKey);
       ("fname", Pony.Required_str max_name_len);
       ("lname", Pony.Required_str max_name_len);
       ("emails", Pony.Required_Json (validate_emails ext));
       ("groups", Pony.SetOf Group);
       ("address_books", Pony.SetOf AddressBook)]
  | Group =>
      [("id", Pony.PrimaryKey);
       ("name", Pony.Required_str max_name_len);
       ("members", Pony.SetOf Person);
       ("address_books", Pony.SetOf AddressBook)]
  | AddressBook =>
      [("id", Pony.PrimaryKey);
       ("name", Pony.Required_str max_name_len);
       ("people", Pony.SetOf Person);
       ("groups", Pony.SetOf Group)]
  end.

(** [composite_key(fname, lname)] and [unique=True]. *)
Definition unique_keys (m : model) : list (list string) :=
  match m with
  | Person => [["fname"; "lname"]]
  | Group => [["name"]]
  | AddressBook => [["name"]]
  end.

(** ** pony.orm: what an entity class can do *)

Module Entity.
Import Pony.

Definition pk_le (a b : Z * pydict) : Prop := a.1 ≤ b.1.

#[global] Instance pk_le_dec : RelDecision pk_le.
Proof. intros a b. unfold pk_le. apply _. Defined.

Section WithExternals.
Context (ext : externals).

Definition attr_names (m : model) : list string := dict_keys (attrs ext m).

(** What [getattr(Model, field)] finds: a declared attribute or something
    the base class provides. *)
Inductive class_attr :=
| Declared (name : string) (decl : attr_decl)
| Inherited.

Definition getattr (m : model) (field : string) : option class_attr :=
  match dict_get (attrs ext m) field with
  | Some decl => Some (Declared field decl)
  | None => if entity_api ext field then Some Inherited else None
  end.

Definition hasattr (m : model) (field : string) : bool :=
  bool_decide (is_Some (getattr m field)).

Definition required_msg (m : model) (name : string) : string :=
  "Attribute " +:+ model_name m +:+ "." +:+ name +:+ " is required".

(** The result of validating one keyword of the constructor. *)
Inductive validated :=
| AutoPk               (* no key given: the database assigns one *)
| Pk (n : Z)
| Scalar (v : value)
| EmptySet.

(** [attr.validate(val)], where [None] stands for a keyword that was not
    given. *)
Definition validate (m : model) (name : string) (decl : attr_decl)
    (val : option value) : outcome validated :=
  match decl with
  | PrimaryKey =>
      match val with
      | None | Some VNone => Return AutoPk
      | Some v => n ← pk_of_key ext v; Return (Pk n)
      end
  | Required_str max_len =>
      match val with
      | None | Some VNone => Raise (Exn ValueError (required_msg m name))
      | Some (VStr s) =>
          let s := strip s in
          if (max_len <? String.length s)%nat then
            Raise (Exn ValueError ("Value for attribute " +:+ model_name m
                                   +:+ "." +:+ name +:+ " is too long"))
          else if bool_decide (s = "") then
            Raise (Exn ValueError (required_msg m name))
          else Return (Scalar (VStr s))
      | Some _ =>
          Raise (Exn TypeError ("Value type for attribute " +:+ model_name m
                                +:+ "." +:+ name +:+ " must be str"))
      end
  | Required_Json py_check =>
      match val with
      | None | Some VNone => Raise (Exn ValueError (required_msg m name))
      | Some v =>
          ok ← py_check v;
          if ok : bool then
            match v with
            | VStr EmptyString => Raise (Exn ValueError (required_msg m name))
            | _ => Return (Scalar v)
            end
          else
            Raise (Exn ValueError ("Check for attribute " +:+ model_name m
                                   +:+ "." +:+ name +:+ " failed"))
      end
  | SetOf target =>
      match val with
      | None | Some (VList []) | Some (VDict []) | Some (VStr EmptyString) =>
          Return EmptySet
      | Some VNone =>
          Raise (Exn ValueError ("A single " +:+ model_name target
                                 +:+ " instance or iterable is expected. Got: None"))
      | Some _ =>
          Raise (Exn TypeError ("Item of collection " +:+ model_name m +:+ "."
                                +:+ name +:+ " must be an instance of "
                                +:+ model_name target))
      end
  end.

Definition pk_of_avdict (avdict : list (string * validated)) : option Z :=
  match dict_get avdict "id" with
  | Some (Pk n) => Some n
  | _ => None
  end.

Definition vals_of_avdict (avdict : list (string * validated)) : pydict :=
  omap (λ a, match a.2 with Scalar v => Some (a.1, v) | _ => None end) avdict.

(** The constructor call [Model] with keywords [kwargs]: unknown keywords are refused, then every attribute
    is validated in declaration order.  The object is not in the database
    before [flush]. *)
Definition new (m : model) (kwargs : pydict) : outcome (option Z * pydict) :=
  match List.find (λ name, bool_decide (name ∉ attr_names m)) (dict_keys kwargs) with
  | Some name => Raise (Exn TypeError ("Unknown attribute '" +:+ name +:+ "'"))
  | None =>
      avdict ← mapM (λ a, v ← validate m a.1 a.2 (dict_get kwargs a.1);
                          Return (a.1, v))
                    (attrs ext m);
      Return (pk_of_avdict avdict, vals_of_avdict avdict)
  end.

(** The values of a row on the columns of a key; [None] when one is not a
    string (NULL never collides). *)
Definition key_of (cols : list string) (vals : pydict) : option (list string) :=
  mapM (λ c, match dict_get vals c with Some (VStr s) => Some s | _ => None end) cols.

Definition collides (m : model) (t : gmap Z pydict) (vals : pydict) : Prop :=
  Exists (λ cols, is_Some (key_of cols vals) ∧
                  Exists (λ r, key_of cols r.2 = key_of cols vals) (map_to_list t))
         (unique_keys m).

(** AUTOINCREMENT: one more than every key the table holds or has held. *)
Definition next_pk (t : table_t) : Z :=
  1 + foldr Z.max (Z.max 0 (seq t)) (fst <$> map_to_list (rows t)).

Definition instance_name (m : model) (pk : Z) : string :=
  model_name m +:+ "[" +:+ pretty pk +:+ "]".

(** [instance.flush()] of a new object: the INSERT, under the PRIMARY KEY
    and UNIQUE constraints of the table. *)
Definition flush (m : model) (pk : option Z) (vals : pydict) : M store instance :=
  t <- gets (λ s, table s m) ;;
  let pk := default (next_pk t) pk in
  if bool_decide (is_Some (rows t !! pk)) then
    raise (Exn IntegrityError ("PRIMARY KEY constraint failed: " +:+ instance_name m pk))
  else if bool_decide (collides m (rows t) vals) then
    raise (Exn IntegrityError ("UNIQUE constraint failed: " +:+ model_name m))
  else
    _ <- modify (λ s, set_table s m (Table (<[pk := vals]> (rows t)) (Z.max (seq t) pk))) ;;
    ret (Instance m pk vals).

(** [Model[key]] *)
Definition getitem (m : model) (key : value) : M store instance :=
  pk <- lift (pk_of_key ext key) ;;
  row <- gets (λ s, rows (table s m) !! pk) ;;
  match row with
  | Some vals => ret (Instance m pk vals)
  | None => raise (Exn ObjectNotFound (instance_name m pk))
  end.

(** [obj.delete()]: every collection of the object is emptied (a
    many-to-many [Set] does not cascade), then the row goes. *)
Definition delete (m : model) (pk : Z) : M store () :=
  modify (λ s,
    let s := foldr (λ a s, match a.2 with SetOf target => Set_clear m target pk s | _ => s end)
                   s (attrs ext m) in
    let t := table s m in
    set_table s m (Table (base.delete pk (rows t)) (seq t))).

(** [obj.to_dict(with_collections=...)] with [related_objects] left at its
    default [False]: a collection is the sorted list of the primary keys of
    its members. *)
Definition to_dict (s : store) (obj : instance) (with_collections : bool) : value :=
  VDict (attrs ext (i_model obj) ≫= λ a,
    match a.2 with
    | PrimaryKey => [(a.1, VInt (i_pk obj))]
    | Required_str _ | Required_Json _ =>
        [(a.1, default VNone (dict_get (i_vals obj) a.1))]
    | SetOf target =>
        if with_collections
        then [(a.1, VList (VInt <$> related s (i_model obj) target (i_pk obj)))]
        else []
    end).

(** [list(Model.select())], in primary-key order. *)
Definition select (m : model) (s : store) : list instance :=
  (λ r, Instance m r.1 r.2) <$> merge_sort pk_le (map_to_list (rows (table s m))).

End WithExternals.
End Entity.

(** ** server.py *)

(** *** my_dict *)

(** The serializer.  The entity branch is [e.to_dict()] with the defaults of
    pony ([with_collections=False]); its result is returned as it is. *)
Fixpoint my_dict (ext : externals) (s : Pony.store) (e : value) : value :=
  match e with
  | VEntity m pk vals => Entity.to_dict ext s (Pony.Instance m pk vals) false
  | VList l => VList (my_dict ext s <$> l)
  | VDict d => VDict (prod_map id (my_dict ext s) <$> d)
  | _ => e
  end.

(** [my_dict] as the interpreter runs it: every call takes one of [frames]
    stack frames, and running out of frames is [None]. *)
Fixpoint my_dict_frames (ext : externals) (s : Pony.store) (frames : nat) (e : value)
    : option value :=
  match frames with
  | O => None
  | S frames =>
      match e with
      | VEntity m pk vals => Some (Entity.to_dict ext s (Pony.Instance m pk vals) false)
      | VList l => VList <$> mapM (my_dict_frames ext s frames) l
      | VDict d =>
          VDict <$> mapM (λ kv, pair kv.1 <$> my_dict_frames ext s frames kv.2) d
      | _ => Some e
      end
  end.

(** The nesting depth of a value; an entity counts as a leaf. *)
Fixpoint depth (e : value) : nat :=
  match e with
  | VList l => S (foldr (λ x n, Nat.max (depth x) n) 0%nat l)
  | VDict d => S (foldr (λ kv n, Nat.max (depth kv.2) n) 0%nat d)
  | _ => 0%nat
  end.

(** *** Requests, responses and the logger *)

Record request := Request {
  GET : list (string * string);         (* request.GET, the query string *)
  json : outcome value;                 (* await request.json() *)
  match_info : list (string * string)   (* filled in by the router *)
}.

(** What a handler returns: a response, or Python's [None]. *)
Inductive retval :=
| PyNone
| Response (status : Z) (body : value).

(** [web.json_response(data, status=200)] *)
Definition json_response (data : value) : retval := Response 200 data.

Inductive log_arg :=
| LogValue (v : value)
| LogTraceback (ex : exn).      (* traceback.format_exc() while [ex] is handled *)

Record log_record := LogRecord { level : string; fmt : string; arg : log_arg }.

(** The process: the bound database and the records handed to the logger. *)
Record world := World { db : Pony.store; log : list log_record }.

Definition log_call (lvl fmt : string) (a : log_arg) : M world () :=
  modify (λ w, World (db w) (log w ++ [LogRecord lvl fmt a])).

(** [with db_session: body], run on the database of the process. *)
Definition with_db_session {A} (body : M Pony.store A) : M world A :=
  λ w, match Pony.db_session body (db w) with
       | (r, s') => (r, World s' (log w))
       end.

(** [int(id)] *)
Fixpoint decimal (acc : Z) (s : string) : option Z :=
  match s with
  | EmptyString => Some acc
  | String c s' =>
      match Ascii.is_nat c with
      | Some d => decimal (10 * acc + Z.of_nat d) s'
      | None => None
      end
  end.

Definition int_ (ext : externals) (s : string) : outcome Z :=
  match s with
  | EmptyString => int_of_str ext s
  | _ => match decimal 0 s with
         | Some n => Return n
         | None => int_of_str ext s
         end
  end.

(** [json_data['id']] *)
Definition subscript (v : value) (k : string) : outcome value :=
  match v with
  | VDict d =>
      match dict_get d k with
      | Some x => Return x
      | None => Raise (Exn KeyError ("'" +:+ k +:+ "'"))
      end
  | _ => Raise (Exn TypeError "indices must be integers or the object is not subscriptable")
  end.

(** [json_data] unpacked into the keywords of a call. *)
Definition keywords (v : value) : outcome pydict :=
  match v with
  | VDict d => Return d
  | _ => Raise (Exn TypeError "argument after ** must be a mapping")
  end.

(** The truth value of [params.get(k)]. *)
Definition truthy (x : option string) : bool :=
  match x with
  | Some (String _ _) => true
  | _ => false
  end.

(** *** Routes

    A route pattern is a sequence of literal text and variables with a
    character class: [{id:\d+}] is [Var "id" digit].  The text after a
    variable is "/..." or the end of the path, which the classes used here
    exclude, so taking the longest run of class characters is what the
    regular expression does. *)

Inductive piece :=
| Lit (text : string)
| Var (name : string) (cls : ascii → bool).

Definition digit (c : ascii) : bool := bool_decide (is_Some (Ascii.is_nat c)).

Definition lower_letter (c : ascii) : bool :=
  let n := nat_of_ascii c in (97 <=? n)%nat && (n <=? 122)%nat.

Inductive endpoint :=
| Get (m : model)
| Add (m : model)
| Put (m : model)
| Del (m : model)
| FindByName
| FindByEmail.

Record route := Route {
  route_method : string;
  route_pattern : list piece;
  route_handler : endpoint;
  route_name : string
}.

(** [str.lower()] on ASCII letters. *)
Definition lower_char (c : ascii) : ascii :=
  let n := nat_of_ascii c in
  if (65 <=? n)%nat && (n <=? 90)%nat then ascii_of_nat (n + 32) else c.

Fixpoint lower (s : string) : string :=
  match s with
  | EmptyString => EmptyString
  | String c s' => String (lower_char c) (lower s')
  end.

(** *** class OhMyRestRouter

    [self] is the model the router was built for. *)

Module OhMyRestRouter.

Section WithExternals.
Context (ext : externals).

(** The decorator: the handler receives the entries of [match_info] as
    keywords. *)
Definition args_from_uri_id (f : request → string → M world retval)
    (request : request) : M world retval :=
  match match_info request with
  | [("id", id)] => f request id
  | _ => raise (Exn TypeError "unexpected or missing keyword argument")
  end.

Definition args_from_uri_id_field (f : request → string → string → M world retval)
    (request : request) : M world retval :=
  match match_info request with
  | [("id", id); ("field", field)] => f request id field
  | _ => raise (Exn TypeError "unexpected or missing keyword argument")
  end.

Definition get (self : model) (request : request) (id : string) : M world retval :=
  id <- lift (int_ ext id) ;;
  result <- with_db_session (
    instance <- Entity.getitem ext self (VInt id) ;;
    instance_data <- gets (λ s, Entity.to_dict ext s instance true) ;;
    gets (λ s, my_dict ext s instance_data)) ;;
  ret (json_response result).

Definition put (self : model) (request : request) : M world retval :=
  json_data <- lift (json request) ;;
  _ <- log_call "debug" "adding to the database: %s" (LogValue json_data) ;;
  instance_data <- with_db_session (
    kwargs <- lift (keywords json_data) ;;
    obj <- lift (Entity.new ext self kwargs) ;;
    instance <- Entity.flush self obj.1 obj.2 ;;
    gets (λ s, Entity.to_dict ext s instance true)) ;;
  ret (json_response instance_data).

Definition add (self : model) (request : request) (id field : string) : M world retval :=
  id <- lift (int_ ext id) ;;
  if negb (Entity.hasattr ext self field) then
    raise (Exn Error ("no such field: " +:+ field))
  else
    match Entity.getattr ext self field with
    | Some (Entity.Declared name (Pony.SetOf model)) =>
        json_data <- lift (json request) ;;
        result <- with_db_session (
          instance <- Entity.getitem ext self (VInt id) ;;
          key <- lift (subscript json_data "id") ;;
          item <- Entity.getitem ext model key ;;
          _ <- Pony.Set_add self model (Pony.i_pk instance) (Pony.i_pk item) ;;
          data <- gets (λ s, Entity.to_dict ext s instance true) ;;
          gets (λ s, my_dict ext s data)) ;;
        ret (json_response result)
    | _ => raise (Exn AssertionError "we can add only to Set() field")
    end.

Definition delete (self : model) (request : request) (id : string) : M world retval :=
  id <- lift (int_ ext id) ;;
  _ <- with_db_session (
    instance <- Entity.getitem ext self (VInt id) ;;
    Entity.delete ext self (Pony.i_pk instance)) ;;
  ret PyNone.

End WithExternals.

(** [__init__]: the four routes of a model, in registration order. *)
Definition init (model : model) : list route :=
  let name := lower (model_name model) in
  let prefix := "/" +:+ name in
  let uri_name := λ method, name +:+ "_" +:+ method in
  [ Route "GET" [Lit prefix; Lit "/"; Var "id" digit] (Get model) (uri_name "get");
    Route "PUT" [Lit prefix; Lit "/"; Var "id" digit; Lit "/addto/"; Var "field" lower_letter]
          (Add model) (uri_name "add");
    Route "PUT" [Lit prefix] (Put model) (uri_name "put");
    Route "DELETE" [Lit prefix; Lit "/"; Var "id" digit] (Del model) (uri_name "del") ].

End OhMyRestRouter.

(** *** error_middleware *)

Definition json_error (message : string) : retval :=
  Response 500 (VDict [("error", VStr message)]).

Definition error_middleware (handler : request → M world retval)
    (request : request) : M world retval :=
  λ w, match handler request w with
       | (Return response, w') => (Return response, w')
       | (Raise ex, w') =>
           (_ <- log_call "error" "error while serving request:\n%s" (LogTraceback ex) ;;
            ret (json_error (str ex))) w'
       end.

(** *** find_by_name and find_by_email *)

(** The row test of [query.filter(attr=x)]. *)
Definition attr_is (name x : string) (obj : Pony.instance) : bool :=
  match dict_get (Pony.i_vals obj) name with
  | Some (VStr y) => bool_decide (y = x)
  | _ => false
  end.

(** The row test of [key in p.emails] on a Json attribute: membership in an
    array, key presence in an object. *)
Definition json_contains (name key : string) (obj : Pony.instance) : bool :=
  match dict_get (Pony.i_vals obj) name with
  | Some (VList l) =>
      existsb (λ v, match v with VStr y => bool_decide (y = key) | _ => false end) l
  | Some (VDict d) => bool_decide (key ∈ dict_keys d)
  | _ => false
  end.

Definition find_by_name (ext : externals) (request : request) : M world retval :=
  let params := GET request in
  let fname := dict_get params "fname" in
  let lname := dict_get params "lname" in
  if negb (truthy fname || truthy lname) then
    raise (Exn AssertionError "you need at least one parameter: fname, lname or both")
  else
    response <- with_db_session (
      query <- gets (Entity.select Person) ;;
      let query := if truthy fname
                   then List.filter (attr_is "fname" (default "" fname)) query
                   else query in
      let query := if truthy lname
                   then List.filter (attr_is "lname" (default "" lname)) query
                   else query in
      gets (λ s, (λ person, Entity.to_dict ext s person true) <$> query)) ;;
    ret (json_response (VList response)).

Definition find_by_email (ext : externals) (request : request) : M world retval :=
  match dict_get (GET request) "email" with
  | None => raise (Exn KeyError "'email'")
  | Some email =>
      response <- with_db_session (
        query <- gets (λ s, List.filter (json_contains "emails" email)
                                        (Entity.select Person s)) ;;
        gets (λ s, (λ person, Entity.to_dict ext s person true) <$> query)) ;;
      ret (json_response (VList response))
  end.

(** *** setup_app and the dispatch of a request *)

Definition setup_app : list route :=
  OhMyRestRouter.init Person ++ OhMyRestRouter.init Group
  ++ OhMyRestRouter.init AddressBook
  ++ [ Route "GET" [Lit "/person/find/"] FindByName "person-find";
       Route "GET" [Lit "/person/find-by-email/"] FindByEmail "person-find-by-email" ].

Fixpoint strip_prefix (p s : string) : option string :=
  match p with
  | EmptyString => Some s
  | String a p' =>
      match s with
      | String b s' => if Ascii.eqb a b then strip_prefix p' s' else None
      | EmptyString => None
      end
  end.

Fixpoint span (cls : ascii → bool) (s : string) : string * string :=
  match s with
  | String c s' =>
      if cls c then (String c (span cls s').1, (span cls s').2) else (EmptyString, s)
  | EmptyString => (EmptyString, EmptyString)
  end.

(** The whole path against a pattern; the result is [match_info]. *)
Fixpoint match_pattern (p : list piece) (path : string) : option (list (string * string)) :=
  match p with
  | [] => match path with EmptyString => Some [] | _ => None end
  | Lit text :: p' => rest ← strip_prefix text path; match_pattern p' rest
  | Var name cls :: p' =>
      match span cls path with
      | (EmptyString, _) => None
      | (v, rest) => info ← match_pattern p' rest; Some ((name, v) :: info)
      end
  end.

Inductive resolution :=
| Matched (r : route) (info : list (string * string))
| MethodNotAllowed
| NotFound.

(** The first route, in registration order, whose pattern matches the path
    and whose method is the request's. *)
Fixpoint resolve (routes : list route) (method path : string) (path_seen : bool)
    : resolution :=
  match routes with
  | [] => if path_seen then MethodNotAllowed else NotFound
  | r :: routes' =>
      match match_pattern (route_pattern r) path with
      | Some info =>
          if String.eqb (route_method r) method then Matched r info
          else resolve routes' method path true
      | None => resolve routes' method path path_seen
      end
  end.

(** The coroutine registered for an endpoint. *)
Definition handler_of (ext : externals) (e : endpoint) : request → M world retval :=
  match e with
  | Get m => OhMyRestRouter.args_from_uri_id (OhMyRestRouter.get ext m)
  | Add m => OhMyRestRouter.args_from_uri_id_field (OhMyRestRouter.add ext m)
  | Put m => OhMyRestRouter.put ext m
  | Del m => OhMyRestRouter.args_from_uri_id (OhMyRestRouter.delete ext m)
  | FindByName => find_by_name ext
  | FindByEmail => find_by_email ext
  end.

(** ** A concrete instance of the libraries

    The examples run the model on this instance.  The address check follows
    the shape the specification gives for it: a non-empty local part, [@],
    and a domain with a dot. *)

Definition sample_validate_email (v : value) : outcome bool :=
  match v with
  | VStr s =>
      match String.index 0 "@" s with
      | Some (S i) =>
          let domain := String.substring (S (S i)) (String.length s) s in
          Return (bool_decide (is_Some (String.index 1 "." domain)))
      | _ => Return false
      end
  | _ => Raise (Exn TypeError "expected string or bytes-like object")
  end.

Definition sample_ext : externals := {|
  validate_email := sample_validate_email;
  int_of_key := λ _, Raise (Exn TypeError "Value type for attribute must be int");
  int_of_str := λ _, Raise (Exn ValueError "invalid literal for int() with base 10");
  entity_api := λ name, bool_decide (name ∈ ["select"; "get"; "exists"; "delete"; "load"; "flush"; "set"])
|}.

Definition world0 : world := World Pony.empty [].

Definition body_request (body : value) : request := Request [] (Return body) [].
Definition query_request (params : list (string * string)) : request :=
  Request params (Return VNone) [].

Definition ada : value :=
  VDict [("fname", VStr "Ada"); ("lname", VStr "Lovelace");
         ("emails", VList [VStr "ada@example.com"])].

(** The world after three creations: Person 1, Group 1, AddressBook 1. *)
Definition world3 : world :=
  let w := (OhMyRestRouter.put sample_ext Person (body_request ada) world0).2 in
  let w := (OhMyRestRouter.put sample_ext Group
              (body_request (VDict [("name", VStr "Mathematicians")])) w).2 in
  (OhMyRestRouter.put sample_ext AddressBook
     (body_request (VDict [("name", VStr "Friends")])) w).2.

(** ... and after Person 1 and Group 1 were added to AddressBook 1. *)
Definition world5 : world :=
  let item := body_request (VDict [("id", VInt 1)]) in
  let w := (OhMyRestRouter.add sample_ext AddressBook item "1" "people" world3).2 in
  (OhMyRestRouter.add sample_ext AddressBook item "1" "groups" w).2.

(** ** Vocabulary for the statements about routes *)

Fixpoint occurs (c : ascii) (s : string) : bool :=
  match s with
  | EmptyString => false
  | String a s' => Ascii.eqb a c || occurs c s'
  end.

Fixpoint all_chars (cls : ascii → bool) (s : string) : bool :=
  match s with
  | EmptyString => true
  | String a s' => cls a && all_chars cls s'
  end.

(** No text that matches the piece holds the character [c]. *)
Definition piece_excludes (c : ascii) (p : piece) : bool :=
  match p with
  | Lit text => negb (occurs c text)
  | Var _ cls => negb (cls c)
  end.

(** The variables of a pattern with their classes, in order. *)
Fixpoint classes_of (p : list piece) : list (string * (ascii → bool)) :=
  match p with
  | [] => []
  | Lit _ :: p' => classes_of p'
  | Var name cls :: p' => (name, cls) :: classes_of p'
  end.

(** ** Vocabulary for the statements about the query endpoints *)

(** A query parameter counts for the search when it is present and not
    empty. *)
Definition supplied (p : option string) (x : string) : Prop :=
  p = Some x ∧ x ≠ "".

(** ** The constraints on a new Person, as the class declares them *)

(** A name: a string that, stripped, is not empty and fits the column. *)
Definition name_rule (kwargs : pydict) (name : string) : Prop :=
  ∃ s, dict_get kwargs name = Some (VStr s)
       ∧ Pony.strip s ≠ ""
       ∧ (String.length (Pony.strip s) ≤ max_name_len)%nat.

(** The emails: present, a list of one to ten elements, each passing the
    address check. *)
Definition emails_rule (ext : externals) (kwargs : pydict) : Prop :=
  ∃ l, dict_get kwargs "emails" = Some (VList l)
       ∧ (1 ≤ length l ≤ 10)%nat
       ∧ Forall (λ e, validate_email ext e = Return true) l.

(** A collection given to the constructor is empty. *)
Definition no_members (kwargs : pydict) (name : string) : Prop :=
  dict_get kwargs name = None ∨ dict_get kwargs name = Some (VList [])
  ∨ dict_get kwargs name = Some (VDict []) ∨ dict_get kwargs name = Some (VStr "").




(** ... and the world where Person 1 is also a member of Group 1, so that
    Person 1, Group 1 and AddressBook 1 refer to one another in a cycle. *)
Definition world_cycle : world :=
  (OhMyRestRouter.add sample_ext Person (body_request (VDict [("id", VInt 1)]))
                      "1" "groups" world5).2.

Definition person_body (emails : value) : value :=
  VDict [("fname", VStr "Grace"); ("lname", VStr "Hopper"); ("emails", emails)].

(** What a handler can count on when the router calls it: exactly the
    keywords it takes, an id made of digits, and a field made of lower-case
    letters. *)
Definition keywords_fit (ext : externals) (e : endpoint)
    (info : list (string * string)) : Prop :=
  match e with
  | Get _ | Del _ =>
      ∃ id n, info = [("id", id)] ∧ int_ ext id = Return n ∧ 0 ≤ n
  | Add _ =>
      ∃ id n field, info = [("id", id); ("field", field)]
        ∧ int_ ext id = Return n ∧ 0 ≤ n
        ∧ field ≠ "" ∧ all_chars lower_letter field = true
  | Put _ | FindByName | FindByEmail => info = []
  end.

(** [prefix] of [OhMyRestRouter.__init__]. *)
Definition prefix (m : model) : string := "/" +:+ lower (model_name m).


#[global] Instance relation_eq_dec : EqDecision Pony.relation.
Proof. solve_decision. Defined.

(** ** Vocabulary for the statements about the link tables *)

(** The classes a link table relates: where the first and the second
    component of its pairs live. *)
Definition ends (r : Pony.relation) : model * model :=
  match r with
  | Pony.PG => (Person, Group)
  | Pony.PA => (Person, AddressBook)
  | Pony.GA => (Group, AddressBook)
  end.

(** The pair [p] of link table [r] involves the entity [pk] of class [m]. *)
Definition touches (m : model) (pk : Z) (r : Pony.relation) (p : Z * Z) : Prop :=
  ((ends r).1 = m ∧ p.1 = pk) ∨ ((ends r).2 = m ∧ p.2 = pk).

(** ** The worlds the application can be in

    The application starts on the empty in-memory database and serves one
    request after the other, each through the middleware and the handler of
    an endpoint. *)
Inductive reachable (ext : externals) : world → Prop :=
| reachable_start : reachable ext world0
| reachable_request w e request :
    reachable ext w →
    reachable ext (error_middleware (handler_of ext e) request w).2.

(** No two rows of a table agree on a key of the table. *)
Definition unique_rows (s : Pony.store) : Prop :=
  ∀ m cols pk1 pk2 row1 row2 k,
    cols ∈ unique_keys m →
    Pony.rows (Pony.table s m) !! pk1 = Some row1 →
    Pony.rows (Pony.table s m) !! pk2 = Some row2 →
    Entity.key_of cols row1 = Some k →
    Entity.key_of cols row2 = Some k →
    pk1 = pk2.

(** Both components of every pair of every link table are keys of rows. *)
Definition no_dangling (s : Pony.store) : Prop :=
  ∀ r p, p ∈ Pony.links s r →
    is_Some (Pony.rows (Pony.table s (ends r).1) !! p.1)
    ∧ is_Some (Pony.rows (Pony.table s (ends r).2) !! p.2).

(** A stored name: a non-empty string of at most [max_name_len]
    characters. *)
Definition stored_name (s : string) : Prop :=
  s ≠ "" ∧ (String.length s ≤ max_name_len)%nat.

(** The rows a table of the class can hold. *)
Definition well_typed_row (ext : externals) (m : model) (vals : pydict) : Prop :=
  match m with
  | Person =>
      ∃ f l es, vals = [("fname", VStr f); ("lname", VStr l); ("emails", VList es)]
        ∧ stored_name f ∧ stored_name l
        ∧ (1 ≤ length es ≤ 10)%nat
        ∧ Forall (λ e, validate_email ext e = Return true) es
  | Group | AddressBook =>
      ∃ n, vals = [("name", VStr n)] ∧ stored_name n
  end.

Definition well_typed (ext : externals) (s : Pony.store) : Prop :=
  ∀ m pk vals, Pony.rows (Pony.table s m) !! pk = Some vals → well_typed_row ext m vals.

(** The world after the application served one Create and one failing
    Delete. *)
Definition world_served : world :=
  (error_middleware (handler_of sample_ext (Del Group))
     (Request [] (Return VNone) [("id", "9")])
     (error_middleware (handler_of sample_ext (Put Person)) (body_request ada) world0).2).2.

(** The world after the application served two Creates and the add of
    Person 1 to the [people] of AddressBook 1. *)
Definition world_linked : world :=
  (error_middleware (handler_of sample_ext (Add AddressBook))
     (Request [] (Return (VDict [("id", VInt 1)])) [("id", "1"); ("field", "people")])
     (error_middleware (handler_of sample_ext (Put AddressBook))
        (body_request (VDict [("name", VStr "Friends")]))
        (error_middleware (handler_of sample_ext (Put Person))
           (body_request ada) world0).2).2).2.

(** ** The constraints on a new Group or AddressBook *)



(** * Properties *)

(** ** Reasoning about [M] *)

Ltac unfold_M :=
  unfold bind, lift, gets, ret, raise, modify, with_db_session,
         Pony.db_session, log_call in *.

(** Induction over values that reaches into lists and dictionaries. *)
Lemma value_nested_ind (P : value → Prop) :
  P VNone →
  (∀ b, P (VBool b)) →
  (∀ n, P (VInt n)) →
  (∀ s, P (VStr s)) →
  (∀ l, Forall P l → P (VList l)) →
  (∀ d, Forall (λ kv, P kv.2) d → P (VDict d)) →
  (∀ m pk vals, P (VEntity m pk vals)) →
  ∀ v, P v.
Proof.
  intros HNone HBool HInt HStr HList HDict HEnt.
  fix IH 1. intros [ | b | n | s | l | d | m pk vals].
  - exact HNone.
  - apply HBool.
  - apply HInt.
  - apply HStr.
  - apply HList. induction l as [|x l IHl]; constructor; [apply IH | exact IHl].
  - apply HDict. induction d as [|[k x] d IHd]; constructor; [apply IH | exact IHd].
  - apply HEnt.
Qed.

(** ** The serializer *)

Lemma to_dict_scalars ext s s' obj :
  Entity.to_dict ext s obj false = Entity.to_dict ext s' obj false.
Proof. destruct obj as [[] pk vals]; reflexivity. Qed.

Lemma my_dict_store_irrelevant ext s s' e : my_dict ext s e = my_dict ext s' e.
Proof.
  induction e as [ | | | | l IH | d IH | m pk vals] using value_nested_ind;
    simpl; try reflexivity.
  - f_equal. apply Forall_fmap_ext_1. exact IH.
  - f_equal. apply Forall_fmap_ext_1.
    eapply Forall_impl; [exact IH|]. intros [k v] Hv; simpl in *.
    unfold prod_map; simpl. by rewrite Hv.
Qed.

Lemma depth_elem (l : list value) (x : value) :
  x ∈ l → (depth x ≤ foldr (λ x n, Nat.max (depth x) n) 0 l)%nat.
Proof.
  induction 1 as [x l | x y l _ IH]; simpl; lia.
Qed.

Lemma depth_item (d : pydict) (kv : string * value) :
  kv ∈ d → (depth kv.2 ≤ foldr (λ kv n, Nat.max (depth kv.2) n) 0 d)%nat.
Proof.
  induction 1 as [x l | x y l _ IH]; simpl; lia.
Qed.

(** With more frames than the value is deep, the interpreter's run ends and
    returns what [my_dict] denotes. *)
Lemma my_dict_frames_enough ext s e :
  ∀ frames, (depth e < frames)%nat →
  my_dict_frames ext s frames e = Some (my_dict ext s e).
Proof.
  induction e as [ | | | | l IH | d IH | m pk vals] using value_nested_ind;
    intros [|frames] Hd; try lia; try reflexivity.
  - simpl in *.
    assert (mapM (my_dict_frames ext s frames) l = Some (my_dict ext s <$> l)) as ->;
      [|reflexivity].
    apply mapM_Some_2, Forall2_fmap_r, Forall_Forall2_diag.
    rewrite Forall_forall in IH. apply Forall_forall. intros x Hx.
    apply IH; [exact Hx|]. pose proof (depth_elem l x Hx). lia.
  - simpl in *.
    assert (mapM (λ kv, pair kv.1 <$> my_dict_frames ext s frames kv.2) d
            = Some (prod_map id (my_dict ext s) <$> d)) as ->; [|reflexivity].
    apply mapM_Some_2, Forall2_fmap_r, Forall_Forall2_diag.
    rewrite Forall_forall in IH. apply Forall_forall. intros [k v] Hx.
    simpl. rewrite (IH _ Hx); [reflexivity|].
    pose proof (depth_item d _ Hx). simpl in *. lia.
Qed.

(** C9.  [my_dict] ends on every value, whatever the relationships in the
    store, cyclic or not: a run with one stack frame more than the value is
    deep returns the result; the entity branch takes a single frame and
    returns the entity's own [to_dict()], which holds no collection; the
    result never depends on the store's link tables; and a value that is
    neither an entity, a list nor a dictionary is returned as it is. *)
Theorem my_dict_terminates (ext : externals) (s : Pony.store) (e : value) :
  my_dict_frames ext s (S (depth e)) e = Some (my_dict ext s e)
  ∧ (∀ m pk vals,
       my_dict_frames ext s 1 (VEntity m pk vals)
       = Some (Entity.to_dict ext Pony.empty (Pony.Instance m pk vals) false))
  ∧ (∀ s', my_dict ext s' e = my_dict ext s e)
  ∧ my_dict ext s VNone = VNone
  ∧ (∀ b, my_dict ext s (VBool b) = VBool b)
  ∧ (∀ n, my_dict ext s (VInt n) = VInt n)
  ∧ (∀ x, my_dict ext s (VStr x) = VStr x).
Proof.
  split; [apply my_dict_frames_enough; lia|].
  split; [intros m pk vals; simpl; f_equal; apply to_dict_scalars|].
  split; [intros s'; apply my_dict_store_irrelevant|].
  repeat split.
Qed.

(** ** Routes *)

Lemma occurs_app c a b : occurs c (a +:+ b) = occurs c a || occurs c b.
Proof.
  induction a as [|x a IH]; simpl; [reflexivity|].
  rewrite IH. by rewrite orb_assoc.
Qed.

Lemma strip_prefix_occurs c p s rest :
  strip_prefix p s = Some rest → occurs c s = occurs c p || occurs c rest.
Proof.
  revert s. induction p as [|a p IH]; intros s H; simpl in *.
  - by inversion H.
  - destruct s as [|b s]; [discriminate|].
    destruct (Ascii.eqb_spec a b) as [->|]; [|discriminate].
    simpl. rewrite (IH _ H). by rewrite orb_assoc.
Qed.

Lemma span_spec cls s :
  s = (span cls s).1 +:+ (span cls s).2 ∧ all_chars cls (span cls s).1 = true.
Proof.
  induction s as [|a s [IH1 IH2]]; simpl; [done|].
  destruct (cls a) eqn:Ha; simpl; [|done].
  rewrite Ha, IH2. split; [rewrite IH1 at 1; reflexivity|done].
Qed.

Lemma all_chars_excludes cls c v :
  cls c = false → all_chars cls v = true → occurs c v = false.
Proof.
  intros Hc. induction v as [|a v IH]; simpl; [done|].
  intros [Ha Hv]%andb_prop. rewrite (IH Hv), orb_false_r.
  destruct (Ascii.eqb_spec a c) as [->|]; [congruence|done].
Qed.

(** A path that a pattern matches is made of the pattern's literals and of
    characters of its classes. *)
Lemma match_pattern_excludes c p path info :
  forallb (piece_excludes c) p = true →
  match_pattern p path = Some info →
  occurs c path = false.
Proof.
  revert path info. induction p as [|[text|name cls] p IH]; intros path info Hp H;
    simpl in *.
  - by destruct path.
  - apply andb_prop in Hp as [Ht Hp].
    destruct (strip_prefix text path) as [rest|] eqn:Hrest; [|discriminate].
    simpl in H. rewrite (strip_prefix_occurs c _ _ _ Hrest).
    rewrite (IH _ _ Hp H), orb_false_r. by apply negb_true_iff.
  - apply andb_prop in Hp as [Hc Hp]. apply negb_true_iff in Hc.
    destruct (span_spec cls path) as [Hpath Hall].
    destruct (span cls path) as [v rest]; simpl in *.
    destruct v as [|a v]; [discriminate|].
    destruct (match_pattern p rest) as [info'|] eqn:Hm; [|discriminate].
    rewrite Hpath, occurs_app, (IH _ _ Hp Hm), orb_false_r.
    by apply all_chars_excludes with cls.
Qed.

Lemma match_pattern_classes p path info :
  match_pattern p path = Some info →
  Forall2 (λ nc kv, nc.1 = kv.1 ∧ all_chars nc.2 kv.2 = true) (classes_of p) info.
Proof.
  revert path info. induction p as [|[text|name cls] p IH]; intros path info H;
    simpl in *.
  - destruct path; [|discriminate]. inversion H. constructor.
  - destruct (strip_prefix text path) as [rest|]; [|discriminate]. eauto.
  - destruct (span_spec cls path) as [_ Hall].
    destruct (span cls path) as [v rest]; simpl in *.
    destruct v as [|a v]; [discriminate|].
    destruct (match_pattern p rest) as [info'|] eqn:Hm; [|discriminate].
    inversion H; subst. constructor; [done|]. eauto.
Qed.

Lemma resolve_unmatched routes method path seen :
  Forall (λ r, match_pattern (route_pattern r) path = None) routes →
  resolve routes method path seen = if seen then MethodNotAllowed else NotFound.
Proof.
  induction 1 as [|r routes Hr _ IH]; simpl; [done|]. by rewrite Hr.
Qed.

Lemma resolve_matched routes method path seen r info :
  resolve routes method path seen = Matched r info →
  r ∈ routes ∧ match_pattern (route_pattern r) path = Some info.
Proof.
  revert seen. induction routes as [|r' routes IH]; intros seen H; simpl in *.
  - by destruct seen.
  - destruct (match_pattern (route_pattern r') path) as [info'|] eqn:Hm.
    + destruct (String.eqb (route_method r') method).
      * inversion H; subst. split; [left|done].
      * destruct (IH _ H). split; [by right|done].
    + destruct (IH _ H). split; [by right|done].
Qed.

Lemma setup_app_excludes_underscore :
  forallb (λ r, forallb (piece_excludes "_") (route_pattern r)) setup_app = true.
Proof. reflexivity. Qed.

Lemma setup_app_field_class :
  Forall (λ r, Forall (λ nc, nc.1 = "field" → ∀ c, nc.2 c = lower_letter c)
                      (classes_of (route_pattern r))) setup_app.
Proof.
  repeat constructor; simpl; intros; try discriminate; reflexivity.
Qed.

Lemma all_chars_ext cls cls' v :
  (∀ c, cls c = cls' c) → all_chars cls v = all_chars cls' v.
Proof. intros H. induction v as [|a v IH]; simpl; [done|]. by rewrite H, IH. Qed.

Lemma field_of_info (cs : list (string * (ascii → bool))) info field :
  Forall2 (λ nc kv, nc.1 = kv.1 ∧ all_chars nc.2 kv.2 = true) cs info →
  Forall (λ nc, nc.1 = "field" → ∀ c, nc.2 c = lower_letter c) cs →
  dict_get info "field" = Some field →
  all_chars lower_letter field = true.
Proof.
  induction 1 as [|[n cls] [k v] cs info [Hn Hv] _ IH]; intros Hcs Hget;
    simpl in *; [discriminate|].
  inversion Hcs as [|? ? Hc Hcs']; subst.
  destruct (String.eqb_spec k "field") as [->|].
  - inversion Hget; subst. rewrite <- Hv. symmetry. apply all_chars_ext. by apply Hc.
  - by apply IH.
Qed.

(** C10.  The field name that the AddToCollection route hands to the
    handler is made of the letters a to z only, while [address_books] is a
    declared collection of Person and of Group; so whatever the method, the
    model name and the id, a request to /name/id/addto/address_books finds
    no route. *)
Theorem addto_address_books_has_no_route (ext : externals) (method name id : string) :
  resolve setup_app method ("/" +:+ name +:+ "/" +:+ id +:+ "/addto/address_books") false
  = NotFound
  ∧ dict_get (attrs ext Person) "address_books" = Some (Pony.SetOf AddressBook)
  ∧ dict_get (attrs ext Group) "address_books" = Some (Pony.SetOf AddressBook)
  ∧ (∀ path r info field,
       resolve setup_app method path false = Matched r info →
       dict_get info "field" = Some field →
       field ≠ "address_books" ∧ all_chars lower_letter field = true).
Proof.
  split; [|split; [reflexivity|split; [reflexivity|]]].
  - apply (resolve_unmatched setup_app method _ false).
    pose proof setup_app_excludes_underscore as Hex.
    rewrite forallb_forall in Hex. apply Forall_forall. intros r Hr.
    apply list_elem_of_In, Hex in Hr.
    destruct (match_pattern (route_pattern r) _) as [info|] eqn:Hm; [|done].
    apply (match_pattern_excludes "_" _ _ _ Hr) in Hm.
    rewrite !occurs_app in Hm. apply orb_false_elim in Hm as [_ Hm].
    apply orb_false_elim in Hm as [_ Hm]. apply orb_false_elim in Hm as [_ Hm].
    apply orb_false_elim in Hm as [_ Hm]. discriminate.
  - intros path r info field [Hr Hm]%resolve_matched Hget.
    assert (all_chars lower_letter field = true) as Hlow.
    { pose proof setup_app_field_class as Hcls. rewrite Forall_forall in Hcls.
      eapply field_of_info; [by apply match_pattern_classes in Hm|by apply Hcls|done]. }
    split; [|done]. intros ->. discriminate.
Qed.

Lemma addto_address_books_has_no_route_witness :
  resolve setup_app "PUT" "/person/1/addto/address_books" false = NotFound
  ∧ "groups" ≠ "address_books" ∧ all_chars lower_letter "groups" = true.
Proof.
  destruct (addto_address_books_has_no_route sample_ext "PUT" "person" "1")
    as (H1 & _ & _ & H4).
  split; [exact H1|].
  eapply (H4 "/person/1/addto/groups"); reflexivity.
Defined.

(** ** The middleware *)

(** C8.  The middleware never raises.  A failure of the handler is caught:
    one record with the traceback goes to the logger, and the response is
    status 500 with the body [{"error": str(ex)}], which holds the message
    and nothing of the traceback.  A response of the handler passes through
    and nothing is logged. *)
Theorem error_middleware_catches (handler : request → M world retval)
    (request : request) (w : world) :
  (∃ r, (error_middleware handler request w).1 = Return r)
  ∧ (∀ ex w', handler request w = (Raise ex, w') →
       error_middleware handler request w
       = (Return (Response 500 (VDict [("error", VStr (str ex))])),
          World (db w')
                (log w' ++ [LogRecord "error" "error while serving request:\n%s"
                                      (LogTraceback ex)])))
  ∧ (∀ response w', handler request w = (Return response, w') →
       error_middleware handler request w = (Return response, w')).
Proof.
  unfold error_middleware, json_error.
  destruct (handler request w) as [[response|ex] w'] eqn:Hh; unfold_M; simpl.
  - split; [by eexists|]. split; intros ? ? [= <- <-]; reflexivity.
  - split; [by eexists|]. split; intros ? ? [= <- <-]; reflexivity.
Qed.

Lemma error_middleware_catches_witness :
  error_middleware (λ r, OhMyRestRouter.get sample_ext Person r "7")
                   (body_request VNone) world0
  = (Return (Response 500 (VDict [("error", VStr "Person[7]")])),
     World Pony.empty
           [LogRecord "error" "error while serving request:\n%s"
                      (LogTraceback (Exn ObjectNotFound "Person[7]"))]).
Proof.
  destruct (error_middleware_catches
              (λ r, OhMyRestRouter.get sample_ext Person r "7")
              (body_request VNone) world0) as (_ & H & _).
  apply (H (Exn ObjectNotFound "Person[7]") world0). reflexivity.
Defined.

(** ** The query endpoints *)

Lemma select_spec m s obj :
  obj ∈ Entity.select m s ↔
  Pony.i_model obj = m
  ∧ Pony.rows (Pony.table s m) !! Pony.i_pk obj = Some (Pony.i_vals obj).
Proof.
  unfold Entity.select. rewrite list_elem_of_fmap. split.
  - intros ([pk vals] & -> & Hin). simpl.
    rewrite merge_sort_Permutation in Hin. by apply elem_of_map_to_list in Hin.
  - intros [<- Hrow]. exists (Pony.i_pk obj, Pony.i_vals obj). split.
    + by destruct obj.
    + rewrite merge_sort_Permutation. by apply elem_of_map_to_list.
Qed.

Lemma to_dict_pk ext s obj obj' :
  Pony.i_model obj = Pony.i_model obj' →
  Entity.to_dict ext s obj true = Entity.to_dict ext s obj' true →
  Pony.i_pk obj = Pony.i_pk obj'.
Proof.
  destruct obj as [m pk vals], obj' as [m' pk' vals']; simpl. intros <-.
  destruct m; unfold Entity.to_dict; simpl; congruence.
Qed.

(** The response of a query: the dictionaries of exactly the selected rows
    that pass the test. *)
Lemma filtered_response ext s (test : Pony.instance → bool) pk vals :
  Pony.rows (Pony.person s) !! pk = Some vals →
  Entity.to_dict ext s (Pony.Instance Person pk vals) true
    ∈ ((λ person, Entity.to_dict ext s person true)
         <$> List.filter test (Entity.select Person s))
  ↔ test (Pony.Instance Person pk vals) = true.
Proof.
  intros Hrow. rewrite list_elem_of_fmap. split.
  - intros (obj & Heq & Hin). apply list_elem_of_In, filter_In in Hin as [Hin Ht].
    apply list_elem_of_In, select_spec in Hin as [Hm Hobj].
    assert (Pony.i_pk obj = pk) as Hpk.
    { symmetry. apply (to_dict_pk ext s (Pony.Instance Person pk vals) obj); done. }
    destruct obj as [m pk' vals']; simpl in *; subst.
    rewrite Hrow in Hobj. by inversion Hobj; subst.
  - intros Ht. exists (Pony.Instance Person pk vals). split; [done|].
    apply list_elem_of_In, filter_In. split; [|done].
    apply list_elem_of_In, select_spec. done.
Qed.

Lemma filtered_response_rows ext s (test : Pony.instance → bool) d :
  d ∈ ((λ person, Entity.to_dict ext s person true)
         <$> List.filter test (Entity.select Person s)) →
  ∃ pk vals, Pony.rows (Pony.person s) !! pk = Some vals
             ∧ d = Entity.to_dict ext s (Pony.Instance Person pk vals) true.
Proof.
  rewrite list_elem_of_fmap. intros (obj & -> & Hin).
  apply list_elem_of_In, filter_In in Hin as [Hin _].
  apply list_elem_of_In, select_spec in Hin as [Hm Hobj].
  destruct obj as [m pk vals]; simpl in *; subst. eauto.
Qed.

Lemma json_contains_list key l vals pk :
  dict_get vals "emails" = Some (VList l) →
  json_contains "emails" key (Pony.Instance Person pk vals) = true ↔ VStr key ∈ l.
Proof.
  intros Hl. unfold json_contains; simpl. rewrite Hl.
  rewrite existsb_exists. split.
  - intros (v & Hin & Hv). destruct v; try discriminate.
    apply bool_decide_eq_true in Hv as ->. by apply list_elem_of_In.
  - intros Hin. exists (VStr key). split; [by apply list_elem_of_In|].
    by apply bool_decide_eq_true.
Qed.

(** C7.  Without the [email] parameter the request fails ([KeyError], the
    failure the specification calls BadRequest) and changes nothing.  With
    it, the response lists dictionaries of persons of the store, and a
    person whose [emails] is a list is in the response exactly when that
    list holds the parameter as a string, character for character. *)
Theorem find_by_email_spec (ext : externals) (request : request) (w : world) :
  (dict_get (GET request) "email" = None →
     find_by_email ext request w = (Raise (Exn KeyError "'email'"), w))
  ∧ (∀ email, dict_get (GET request) "email" = Some email →
     ∃ ds, find_by_email ext request w = (Return (Response 200 (VList ds)), w)
       ∧ (∀ d, d ∈ ds →
            ∃ pk vals, Pony.rows (Pony.person (db w)) !! pk = Some vals
              ∧ d = Entity.to_dict ext (db w) (Pony.Instance Person pk vals) true)
       ∧ (∀ pk vals l,
            Pony.rows (Pony.person (db w)) !! pk = Some vals →
            dict_get vals "emails" = Some (VList l) →
            Entity.to_dict ext (db w) (Pony.Instance Person pk vals) true ∈ ds
            ↔ VStr email ∈ l)).
Proof.
  unfold find_by_email. split.
  - intros ->. reflexivity.
  - intros email ->. eexists. split; [|split].
    + unfold_M. simpl. destruct w; reflexivity.
    + intros d. apply filtered_response_rows.
    + intros pk vals l Hrow Hl. rewrite filtered_response by done.
      by apply json_contains_list.
Qed.

Lemma find_by_email_spec_witness :
  find_by_email sample_ext (query_request []) world3
  = (Raise (Exn KeyError "'email'"), world3)
  ∧ ∃ ds,
      find_by_email sample_ext (query_request [("email", "ada@example.com")]) world3
      = (Return (Response 200 (VList ds)), world3)
      ∧ (Entity.to_dict sample_ext (db world3)
           (Pony.Instance Person 1
              [("fname", VStr "Ada"); ("lname", VStr "Lovelace");
               ("emails", VList [VStr "ada@example.com"])]) true ∈ ds
         ↔ VStr "ada@example.com" ∈ [VStr "ada@example.com"]).
Proof.
  split.
  - apply (proj1 (find_by_email_spec sample_ext (query_request []) world3)).
    reflexivity.
  - destruct (proj2 (find_by_email_spec sample_ext
                       (query_request [("email", "ada@example.com")]) world3)
                    "ada@example.com" eq_refl) as (ds & H1 & _ & H3).
    exists ds. split; [exact H1|].
    apply (H3 1 _ [VStr "ada@example.com"]); vm_compute; reflexivity.
Defined.

(** The comparison does not fold case. *)
Example find_by_email_case_sensitive :
  find_by_email sample_ext (query_request [("email", "Ada@example.com")]) world3
  = (Return (Response 200 (VList [])), world3).
Proof. vm_compute. reflexivity. Qed.

Lemma attr_is_spec name x pk vals :
  attr_is name x (Pony.Instance Person pk vals) = true
  ↔ dict_get vals name = Some (VStr x).
Proof.
  unfold attr_is; simpl. destruct (dict_get vals name) as [[]|]; try (split; done).
  rewrite bool_decide_eq_true. split; congruence.
Qed.

Lemma filter_if {A} (b : bool) (t : A → bool) (l : list A) :
  (if b then List.filter t l else l) = List.filter (λ x, if b then t x else true) l.
Proof.
  destruct b; [done|]. induction l as [|x l IH]; simpl; congruence.
Qed.

Lemma filter_twice {A} (t1 t2 : A → bool) (l : list A) :
  List.filter t2 (List.filter t1 l) = List.filter (λ x, t1 x && t2 x) l.
Proof.
  induction l as [|x l IH]; simpl; [done|].
  destruct (t1 x); simpl; [destruct (t2 x)|]; congruence.
Qed.

Lemma truthy_supplied p : truthy p = true ↔ ∃ x, supplied p x.
Proof.
  unfold supplied. destruct p as [[|a s]|]; simpl; split; try done.
  - intros (x & [= <-] & ?). done.
  - intros _. by eexists.
  - intros (x & [=] & _).
Qed.

Lemma truthy_test p name pk vals :
  (if truthy p then attr_is name (default "" p) (Pony.Instance Person pk vals) else true)
  = true
  ↔ ∀ x, supplied p x → dict_get vals name = Some (VStr x).
Proof.
  destruct (truthy p) eqn:Hp.
  - rewrite attr_is_spec. apply truthy_supplied in Hp as [x [-> Hx]]. simpl. split.
    + intros H y [[= <-] _]. done.
    + intros H. apply H. done.
  - split; [|done]. intros _ x Hx.
    assert (truthy p = true) by (apply truthy_supplied; eauto). congruence.
Qed.




(** ... and with [fname=] alone the request fails instead of answering. *)
Example find_by_name_only_empty_parameter :
  find_by_name sample_ext (query_request [("fname", "")]) world3
  = (Raise (Exn AssertionError "you need at least one parameter: fname, lname or both"),
     world3).
Proof. vm_compute. reflexivity. Qed.

(** ** The store *)

Lemma table_set_links s r l m : Pony.table (Pony.set_links s r l) m = Pony.table s m.
Proof. by destruct r, m. Qed.

Lemma links_set_links s r l : Pony.links (Pony.set_links s r l) r = l.
Proof. by destruct r. Qed.


Lemma set_links_same s r : Pony.set_links s r (Pony.links s r) = s.
Proof. by destruct r, s. Qed.

Lemma owner_of_orient fwd owner item : Pony.owner_of fwd (Pony.orient fwd owner item) = owner.
Proof. by destruct fwd. Qed.

Lemma item_of_orient fwd owner item : Pony.item_of fwd (Pony.orient fwd owner item) = item.
Proof. by destruct fwd. Qed.

Lemma elem_of_members_of l fwd owner item :
  item ∈ Pony.members_of l fwd owner ↔ Pony.orient fwd owner item ∈ l.
Proof.
  unfold Pony.members_of. rewrite elem_of_map. split.
  - intros ([a b] & -> & [Ho Hin]%elem_of_filter).
    destruct fwd; simpl in *; by subst.
  - intros Hin. exists (Pony.orient fwd owner item).
    rewrite item_of_orient. split; [done|]. apply elem_of_filter.
    by rewrite owner_of_orient.
Qed.

(** A collection is serialized without repetition: each member once. *)
Lemma related_count s m target r fwd owner item :
  Pony.link_of m target = Some (r, fwd) →
  Pony.orient fwd owner item ∈ Pony.links s r →
  count_occ Z.eq_dec (Pony.related s m target owner) item = 1%nat.
Proof.
  intros Hl Hin. unfold Pony.related. rewrite Hl.
  apply NoDup_count_occ'.
  - apply NoDup_ListNoDup. rewrite merge_sort_Permutation. apply NoDup_elements.
  - apply list_elem_of_In. rewrite merge_sort_Permutation.
    by apply elem_of_elements, elem_of_members_of.
Qed.

(** ** Attributes of the classes *)

Lemma dict_get_elem {A} (d : list (string * A)) k v :
  dict_get d k = Some v → (k, v) ∈ d.
Proof.
  induction d as [|[k' v'] d IH]; simpl; [done|].
  destruct (String.eqb_spec k' k) as [->|].
  - intros [= ->]. left.
  - intros H. right. by apply IH.
Qed.

Lemma declared_set_link ext self field model :
  dict_get (attrs ext self) field = Some (Pony.SetOf model) →
  ∃ r fwd, Pony.link_of self model = Some (r, fwd).
Proof.
  intros H%dict_get_elem.
  assert (Forall (λ a, ∀ model, a.2 = Pony.SetOf model →
                       ∃ r fwd, Pony.link_of self model = Some (r, fwd))
                 (attrs ext self)) as Hall.
  { destruct self; repeat constructor; simpl; intros ? [=]; subst; simpl; eauto. }
  rewrite Forall_forall in Hall. by apply (Hall _ H).
Qed.


Lemma dict_get_to_dict ext s obj field target :
  dict_get (attrs ext (Pony.i_model obj)) field = Some (Pony.SetOf target) →
  ∃ d, my_dict ext s (Entity.to_dict ext s obj true) = VDict d
       ∧ dict_get d field
         = Some (VList (VInt <$> Pony.related s (Pony.i_model obj) target (Pony.i_pk obj))).
Proof.
  intros H. unfold Entity.to_dict. simpl. eexists. split; [reflexivity|].
  induction (attrs ext (Pony.i_model obj)) as [|[name decl] l IH]; [discriminate|].
  simpl in *. destruct (String.eqb name field) eqn:Hname.
  - injection H as ->. simpl. rewrite Hname. f_equal. f_equal.
    rewrite <- list_fmap_compose. by apply list_fmap_ext.
  - destruct decl; simpl; rewrite Hname; by apply IH.
Qed.

(** ** AddToCollection *)







(** ** Get and the serialized relationships *)

Lemma get_run ext self request id n vals w :
  int_ ext id = Return n →
  Pony.rows (Pony.table (db w) self) !! n = Some vals →
  OhMyRestRouter.get ext self request id w
  = (Return (Response 200
       (my_dict ext (db w) (Entity.to_dict ext (db w) (Pony.Instance self n vals) true))),
     w).
Proof.
  intros Hid Hrow. unfold OhMyRestRouter.get, Entity.getitem. unfold_M.
  rewrite Hid. simpl. rewrite Hrow. by destruct w.
Qed.

Lemma get_missing ext self request id n w :
  int_ ext id = Return n →
  Pony.rows (Pony.table (db w) self) !! n = None →
  OhMyRestRouter.get ext self request id w
  = (Raise (Exn ObjectNotFound (Entity.instance_name self n)), w).
Proof.
  intros Hid Hrow. unfold OhMyRestRouter.get, Entity.getitem. unfold_M.
  rewrite Hid. simpl. rewrite Hrow. by destruct w.
Qed.

(** What Get answers for a relationship: the sorted primary keys of the
    related entities, as integers. *)
Lemma get_serializes_keys ext self request id n vals w field target :
  int_ ext id = Return n →
  Pony.rows (Pony.table (db w) self) !! n = Some vals →
  dict_get (attrs ext self) field = Some (Pony.SetOf target) →
  ∃ data,
    OhMyRestRouter.get ext self request id w = (Return (Response 200 (VDict data)), w)
    ∧ dict_get data field = Some (VList (VInt <$> Pony.related (db w) self target n)).
Proof.
  intros Hid Hrow Hattr.
  destruct (dict_get_to_dict ext (db w) (Pony.Instance self n vals) field target Hattr)
    as (data & Hdata & Hfield).
  exists data. split; [|exact Hfield]. rewrite <- Hdata. by apply get_run.
Qed.

(** C1, at the scenario of the specification: an AddressBook to which one
    Person and one Group were added.  Both the AddToCollection response and
    the following Get show [people] and [groups] as the lists [[1]] of
    primary keys, not as lists of dictionaries of the related entities. *)
Theorem AddressBook_serialized_with_keys :
  OhMyRestRouter.add sample_ext AddressBook (body_request (VDict [("id", VInt 1)]))
                     "1" "groups"
    (OhMyRestRouter.add sample_ext AddressBook (body_request (VDict [("id", VInt 1)]))
                        "1" "people" world3).2
  = (Return (Response 200
       (VDict [("id", VInt 1); ("name", VStr "Friends");
               ("people", VList [VInt 1]); ("groups", VList [VInt 1])])),
     world5)
  ∧ OhMyRestRouter.get sample_ext AddressBook (body_request VNone) "1" world5
    = (Return (Response 200
         (VDict [("id", VInt 1); ("name", VStr "Friends");
                 ("people", VList [VInt 1]); ("groups", VList [VInt 1])])),
       world5).
Proof. split; vm_compute; reflexivity. Qed.

(** ** Delete *)

Lemma table_Set_clear m target owner s m' :
  Pony.table (Pony.Set_clear m target owner s) m' = Pony.table s m'.
Proof.
  unfold Pony.Set_clear. destruct (Pony.link_of m target) as [[r fwd]|]; [|done].
  apply table_set_links.
Qed.

Lemma table_set_table s m t : Pony.table (Pony.set_table s m t) m = t.
Proof. by destruct m. Qed.

Lemma table_set_table_ne s m m' t :
  m' ≠ m → Pony.table (Pony.set_table s m t) m' = Pony.table s m'.
Proof. by destruct m, m'. Qed.

Lemma table_clear_all ext self pk s m' :
  Pony.table
    (foldr (λ a s, match a.2 with
                   | Pony.SetOf target => Pony.Set_clear self target pk s
                   | _ => s
                   end) s (attrs ext self)) m'
  = Pony.table s m'.
Proof.
  induction (attrs ext self) as [|[name decl] l IH]; simpl; [done|].
  destruct decl; simpl; try done. by rewrite table_Set_clear.
Qed.

(** The effect of Delete on an existing entity: the row is gone, a
    following Get fails with [ObjectNotFound], and the handler returns
    [None]. *)
Lemma delete_existing ext self request id n vals w :
  int_ ext id = Return n →
  Pony.rows (Pony.table (db w) self) !! n = Some vals →
  ∃ w', OhMyRestRouter.delete ext self request id w = (Return PyNone, w')
    ∧ Pony.rows (Pony.table (db w') self) !! n = None
    ∧ OhMyRestRouter.get ext self request id w'
      = (Raise (Exn ObjectNotFound (Entity.instance_name self n)), w').
Proof.
  intros Hid Hrow. unfold OhMyRestRouter.delete, Entity.getitem, Entity.delete.
  unfold_M. rewrite Hid. simpl. rewrite Hrow. simpl.
  eexists. split; [reflexivity|].
  assert (∀ s t, Pony.rows (Pony.table (Pony.set_table s self
             (Pony.Table (base.delete n (Pony.rows t)) (Pony.seq t))) self) !! n = None)
    as Hgone.
  { intros s t. rewrite table_set_table. simpl. apply lookup_delete_eq. }
  split; [apply Hgone|]. apply get_missing; [done|apply Hgone].
Qed.

Lemma delete_missing ext self request id n w :
  int_ ext id = Return n →
  Pony.rows (Pony.table (db w) self) !! n = None →
  OhMyRestRouter.delete ext self request id w
  = (Raise (Exn ObjectNotFound (Entity.instance_name self n)), w).
Proof.
  intros Hid Hrow. unfold OhMyRestRouter.delete, Entity.getitem. unfold_M.
  rewrite Hid. simpl. rewrite Hrow. by destruct w.
Qed.

(** Whatever the request, [delete] hands no response object back: it
    raises or returns [None]. *)
Lemma delete_never_responds ext self request id w status body :
  (OhMyRestRouter.delete ext self request id w).1 ≠ Return (Response status body).
Proof.
  unfold OhMyRestRouter.delete, Entity.getitem, Entity.delete. unfold_M.
  destruct (int_ ext id) as [n|]; simpl; [|done].
  destruct (Pony.rows (Pony.table (db w) self) !! n); simpl; done.
Qed.

(** C5, at DELETE /person/1 after Person 1 was added to AddressBook 1: the
    row and its membership are removed and a following Get fails with
    [ObjectNotFound], but what the handler returns is [None], not a
    response; [get], [put] and [add] each end in [web.json_response]. *)
Theorem delete_returns_None :
  let deleted := OhMyRestRouter.delete sample_ext Person (body_request VNone) "1" world5 in
  deleted.1 = Return PyNone
  ∧ Pony.rows (Pony.person (db deleted.2)) !! 1 = None
  ∧ Pony.related (db deleted.2) AddressBook Person 1 = []
  ∧ (OhMyRestRouter.get sample_ext Person (body_request VNone) "1" deleted.2).1
    = Raise (Exn ObjectNotFound "Person[1]")
  ∧ (OhMyRestRouter.delete sample_ext Person (body_request VNone) "1" deleted.2).1
    = Raise (Exn ObjectNotFound "Person[1]")
  ∧ (∃ status body,
       (OhMyRestRouter.get sample_ext Person (body_request VNone) "1" world5).1
       = Return (Response status body)).
Proof.
  intros deleted. repeat split; try (vm_compute; reflexivity).
  eexists _, _. vm_compute. reflexivity.
Qed.

Lemma delete_clears ext self n s target r fwd p :
  Pony.link_of self target = Some (r, fwd) →
  p ∈ Pony.links (Entity.delete ext self n s).2 r →
  Pony.owner_of fwd p ≠ n.
Proof.
  destruct self, target; intros [= <- <-]; unfold Entity.delete, modify; simpl;
    unfold Pony.Set_clear; simpl; rewrite ?elem_of_filter; tauto.
Qed.

Lemma delete_keeps_rows ext self n s m pk :
  (m, pk) ≠ (self, n) →
  Pony.rows (Pony.table (Entity.delete ext self n s).2 m) !! pk
  = Pony.rows (Pony.table s m) !! pk.
Proof.
  intros Hne. unfold Entity.delete, modify. cbn [snd].
  destruct (decide (m = self)) as [->|Hm].
  - rewrite table_set_table. cbn [Pony.rows]. rewrite table_clear_all.
    apply lookup_delete_ne. congruence.
  - rewrite table_set_table_ne by done. by rewrite table_clear_all.
Qed.

(** ** Create *)

Lemma all_spec f l : all_ f l = Return true ↔ Forall (λ e, f e = Return true) l.
Proof.
  induction l as [|e l IH]; simpl.
  - split; [constructor|done].
  - destruct (f e) as [[]|ex] eqn:He; simpl.
    + rewrite IH. split; [intros H; by constructor|by inversion 1].
    + split; [done|inversion 1; congruence].
    + split; [done|inversion 1; congruence].
Qed.

Lemma validate_emails_spec ext v :
  validate_emails ext v = Return true
  ↔ ∃ l, v = VList l ∧ (1 ≤ length l ≤ 10)%nat
         ∧ Forall (λ e, validate_email ext e = Return true) l.
Proof.
  destruct v as [ | | | |l| | ]; simpl;
    try (split; [done|by intros (l' & [=] & _)]).
  destruct (Nat.ltb_spec (length l) 1); [split; [done|intros (? & [= <-] & ? & _); lia]|].
  destruct (Nat.ltb_spec 10 (length l)); [split; [done|intros (? & [= <-] & ? & _); lia]|].
  rewrite all_spec. split.
  - intros H'. exists l. split; [done|]. split; [lia|done].
  - by intros (? & [= <-] & _ & ?).
Qed.

Lemma validate_pk_spec ext m name v x :
  Entity.validate ext m name Pony.PrimaryKey v = Return x
  ↔ ((v = None ∨ v = Some VNone) ∧ x = Entity.AutoPk)
    ∨ (∃ val n, v = Some val ∧ val ≠ VNone ∧ Pony.pk_of_key ext val = Return n
                ∧ x = Entity.Pk n).
Proof.
  destruct v as [val|].
  2: { simpl. split; [intros [= <-]; left; eauto|].
       intros [[_ ->]|(? & ? & [=] & _)]. done. }
  destruct val as [ | b | k | s | l | d | m' pk' vals'].
  1: { simpl. split; [intros [= <-]; left; eauto|].
       intros [[_ ->]|(? & ? & [= <-] & ? & _)]; done. }
  all: unfold Entity.validate;
    match goal with |- context [Pony.pk_of_key ?e ?val] =>
      destruct (Pony.pk_of_key e val) as [n|ex] eqn:Hk end; simpl;
    (split;
     [ intros H; try discriminate H; injection H as <-; right; eexists _, n;
       repeat split; done
     | intros [[[H|H] _]|(val' & n' & H & _ & Hk' & ->)];
       [discriminate H|discriminate H|injection H as <-; congruence] ]).
Qed.

Lemma validate_str_spec ext m name max_len v x :
  Entity.validate ext m name (Pony.Required_str max_len) v = Return x
  ↔ ∃ s, v = Some (VStr s) ∧ Pony.strip s ≠ ""
         ∧ (String.length (Pony.strip s) ≤ max_len)%nat
         ∧ x = Entity.Scalar (VStr (Pony.strip s)).
Proof.
  destruct v as [[ | | |s| | | ]|]; simpl;
    try (split; [done|by intros (s' & [=] & _)]).
  destruct (Nat.ltb_spec max_len (String.length (Pony.strip s))).
  { split; [done|]. intros (s' & [= <-] & _ & ? & _). lia. }
  case_bool_decide as Hempty.
  { split; [done|]. by intros (s' & [= <-] & ? & _). }
  split.
  - intros [= <-]. by exists s.
  - by intros (s' & [= <-] & _ & _ & ->).
Qed.

Lemma validate_emails_attr_spec ext m name v x :
  Entity.validate ext m name (Pony.Required_Json (validate_emails ext)) v = Return x
  ↔ ∃ l, v = Some (VList l) ∧ (1 ≤ length l ≤ 10)%nat
         ∧ Forall (λ e, validate_email ext e = Return true) l
         ∧ x = Entity.Scalar (VList l).
Proof.
  destruct v as [val|]; simpl; [|split; [done|by intros (l & [=] & _)]].
  destruct (validate_emails ext val) as [[]|ex] eqn:Hcheck.
  - apply validate_emails_spec in Hcheck as (l & -> & Hlen & Hall). simpl. split.
    + intros [= <-]. by exists l.
    + by intros (l' & [= <-] & _ & _ & ->).
  - assert (¬ ∃ l, val = VList l ∧ (1 ≤ length l ≤ 10)%nat
                   ∧ Forall (λ e, validate_email ext e = Return true) l) as Hno.
    { intros H%validate_emails_spec. congruence. }
    destruct val; simpl; (split; [done|]);
      intros (l' & [= <-] & ? & ? & _); exfalso; apply Hno; eauto.
  - assert (¬ ∃ l, val = VList l ∧ (1 ≤ length l ≤ 10)%nat
                   ∧ Forall (λ e, validate_email ext e = Return true) l) as Hno.
    { intros H%validate_emails_spec. congruence. }
    destruct val; simpl; (split; [done|]);
      intros (l' & [= <-] & ? & ? & _); exfalso; apply Hno; eauto.
Qed.

Lemma validate_set_spec ext m name target v x :
  Entity.validate ext m name (Pony.SetOf target) v = Return x
  ↔ (v = None ∨ v = Some (VList []) ∨ v = Some (VDict []) ∨ v = Some (VStr ""))
    ∧ x = Entity.EmptySet.
Proof.
  destruct v as [[ | | |[|? ?]|[|? ?]|[|? ?]| ]|]; simpl;
    (split; [try done; intros [= <-]; eauto 6
            |intros [[|[|[|]]] ->]; done]).
Qed.

Lemma find_none {A} (P : A → bool) (l : list A) :
  List.find P l = None ↔ Forall (λ x, P x = false) l.
Proof.
  induction l as [|x l IH]; simpl; [split; [constructor|done]|].
  destruct (P x) eqn:Hx.
  - split; [done|]. inversion 1; congruence.
  - rewrite IH. split; [by constructor|by inversion 1].
Qed.

Lemma new_Person_inv ext kwargs pk vals :
  Entity.new ext Person kwargs = Return (pk, vals) →
  Forall (λ k, k ∈ ["id"; "fname"; "lname"; "emails"; "groups"; "address_books"])
         (dict_keys kwargs)
  ∧ name_rule kwargs "fname" ∧ name_rule kwargs "lname" ∧ emails_rule ext kwargs
  ∧ no_members kwargs "groups" ∧ no_members kwargs "address_books"
  ∧ ((pk = None ∧ (dict_get kwargs "id" = None ∨ dict_get kwargs "id" = Some VNone))
     ∨ (∃ v n, dict_get kwargs "id" = Some v ∧ Pony.pk_of_key ext v = Return n
               ∧ pk = Some n))
  ∧ ∃ f l es, dict_get kwargs "fname" = Some (VStr f)
      ∧ dict_get kwargs "lname" = Some (VStr l)
      ∧ dict_get kwargs "emails" = Some (VList es)
      ∧ vals = [("fname", VStr (Pony.strip f)); ("lname", VStr (Pony.strip l));
                ("emails", VList es)].
Proof.
  unfold Entity.new.
  destruct (List.find _ _) as [bad|] eqn:Hfind; [done|].
  apply find_none in Hfind. intros H. split.
  { eapply Forall_impl; [exact Hfind|]. intros k Hk. simpl in Hk.
    by apply bool_decide_eq_false, dec_stable in Hk. }
  cbn -[Entity.validate] in H.
  destruct (Entity.validate ext Person "id" _ _) as [x1|] eqn:H1; [|done].
  destruct (Entity.validate ext Person "fname" _ _) as [x2|] eqn:H2; [|done].
  destruct (Entity.validate ext Person "lname" _ _) as [x3|] eqn:H3; [|done].
  destruct (Entity.validate ext Person "emails" _ _) as [x4|] eqn:H4; [|done].
  destruct (Entity.validate ext Person "groups" _ _) as [x5|] eqn:H5; [|done].
  destruct (Entity.validate ext Person "address_books" _ _) as [x6|] eqn:H6; [|done].
  apply validate_str_spec in H2 as (f & Hf & Hf1 & Hf2 & ->).
  apply validate_str_spec in H3 as (l & Hl & Hl1 & Hl2 & ->).
  apply validate_emails_attr_spec in H4 as (es & Hes & Hes1 & Hes2 & ->).
  apply validate_set_spec in H5 as [H5 ->].
  apply validate_set_spec in H6 as [H6 ->].
  injection H as <- <-.
  split; [by exists f|]. split; [by exists l|]. split; [by exists es|].
  split; [exact H5|]. split; [exact H6|]. split.
  - apply validate_pk_spec in H1 as [[H1 ->]|(v & n & H1 & _ & Hn & ->)].
    + left. done.
    + right. by exists v, n.
  - exists f, l, es. repeat split; try done.
    apply validate_pk_spec in H1 as [[H1 ->]|(v & n & H1 & _ & Hn & ->)]; reflexivity.
Qed.




Lemma key_of_names row f l :
  Entity.key_of ["fname"; "lname"] row = Some [f; l]
  ↔ dict_get row "fname" = Some (VStr f) ∧ dict_get row "lname" = Some (VStr l).
Proof.
  unfold Entity.key_of. simpl.
  destruct (dict_get row "fname") as [[]|]; simpl; try (split; [done|by intros [[=] _]]);
  destruct (dict_get row "lname") as [[]|]; simpl; try (split; [done|by intros [_ [=]]]).
  split; [by intros [= -> ->]|by intros [[= ->] [= ->]]].
Qed.







(** The cases the specification lists: no emails, eleven emails, a
    malformed address, emails that are not a list, emails missing.  Each
    creation fails and the database stays as it was. *)
Example create_Person_rejections :
  Forall (λ body,
            let r := OhMyRestRouter.put sample_ext Person (body_request body) world3 in
            succeeded r.1 = false ∧ db r.2 = db world3)
         [ person_body (VList []);
           person_body (VList (replicate 11 (VStr "g@example.com")));
           person_body (VList [VStr "not-an-email"]);
           person_body (VStr "g@example.com");
           VDict [("fname", VStr "Grace"); ("lname", VStr "Hopper")];
           ada ].
Proof. repeat constructor; vm_compute; reflexivity. Qed.

(** The serializer on a cycle of relationships: one dictionary of scalar
    attributes per entity, whatever the entities are related to. *)
Example my_dict_on_cycle :
  my_dict sample_ext (db world_cycle)
    (VList [VEntity Person 1 [("fname", VStr "Ada"); ("lname", VStr "Lovelace");
                              ("emails", VList [VStr "ada@example.com"])];
            VEntity Group 1 [("name", VStr "Mathematicians")]])
  = VList [VDict [("id", VInt 1); ("fname", VStr "Ada"); ("lname", VStr "Lovelace");
                  ("emails", VList [VStr "ada@example.com"])];
           VDict [("id", VInt 1); ("name", VStr "Mathematicians")]]
  ∧ (OhMyRestRouter.get sample_ext Person (body_request VNone) "1" world_cycle).1
    = Return (Response 200
        (VDict [("id", VInt 1); ("fname", VStr "Ada"); ("lname", VStr "Lovelace");
                ("emails", VList [VStr "ada@example.com"]);
                ("groups", VList [VInt 1]); ("address_books", VList [VInt 1])])).
Proof. split; vm_compute; reflexivity. Qed.

(** * Further properties *)

(** ** Sessions and what a failed request leaves behind *)

Lemma with_db_session_raise {A} (body : M Pony.store A) w ex w' :
  with_db_session body w = (Raise ex, w') → w' = w.
Proof.
  unfold with_db_session, Pony.db_session.
  destruct (body (db w)) as [[a|e] s']; intros [= <-]; subst; by destruct w.
Qed.

Lemma with_db_session_log {A} (body : M Pony.store A) w :
  log (with_db_session body w).2 = log w.
Proof.
  unfold with_db_session, Pony.db_session.
  by destruct (body (db w)) as [[a|e] s'].
Qed.

Lemma bind_raise {S A B} (x : M S A) (f : A → M S B) s ex s' :
  bind x f s = (Raise ex, s') →
  x s = (Raise ex, s') ∨ ∃ a s1, x s = (Return a, s1) ∧ f a s1 = (Raise ex, s').
Proof.
  unfold bind. destruct (x s) as [[a|e] s1]; [right; eauto|].
  intros [= <- <-]. by left.
Qed.

Lemma bind_return {S A B} (x : M S A) (f : A → M S B) s b s' :
  bind x f s = (Return b, s') →
  ∃ a s1, x s = (Return a, s1) ∧ f a s1 = (Return b, s').
Proof.
  unfold bind. destruct (x s) as [[a|e] s1]; [eauto|done].
Qed.

Lemma lift_run {S A} (x : outcome A) (s : S) r s' : lift x s = (r, s') → r = x ∧ s' = s.
Proof. by intros [= <- <-]. Qed.

Lemma args_from_uri_id_cases f request w :
  (∃ id, match_info request = [("id", id)]
         ∧ OhMyRestRouter.args_from_uri_id f request w = f request id w)
  ∨ (OhMyRestRouter.args_from_uri_id f request w
     = (Raise (Exn TypeError "unexpected or missing keyword argument"), w)).
Proof.
  unfold OhMyRestRouter.args_from_uri_id, raise.
  repeat case_match; subst; try (by right); left; eauto.
Qed.

Lemma args_from_uri_id_field_cases f request w :
  (∃ id field, match_info request = [("id", id); ("field", field)]
         ∧ OhMyRestRouter.args_from_uri_id_field f request w = f request id field w)
  ∨ (OhMyRestRouter.args_from_uri_id_field f request w
     = (Raise (Exn TypeError "unexpected or missing keyword argument"), w)).
Proof.
  unfold OhMyRestRouter.args_from_uri_id_field, raise.
  repeat case_match; subst; try (by right); left; eauto.
Qed.

(** The read handlers leave the process exactly as it was, whether they
    answer or fail. *)
Lemma get_read_only ext self request id w :
  (OhMyRestRouter.get ext self request id w).2 = w.
Proof.
  unfold OhMyRestRouter.get, Entity.getitem. unfold_M.
  destruct (int_ ext id) as [n|]; simpl; [|done].
  destruct (Pony.rows (Pony.table (db w) self) !! n); simpl; by destruct w.
Qed.

Lemma find_by_name_read_only ext request w : (find_by_name ext request w).2 = w.
Proof.
  unfold find_by_name.
  destruct (negb _); [done|]. unfold_M. simpl. by destruct w.
Qed.

Lemma find_by_email_read_only ext request w : (find_by_email ext request w).2 = w.
Proof.
  unfold find_by_email.
  destruct (dict_get (GET request) "email"); [|done]. unfold_M. simpl. by destruct w.
Qed.

Lemma delete_raise ext self request id w ex w' :
  OhMyRestRouter.delete ext self request id w = (Raise ex, w') → w' = w.
Proof.
  unfold OhMyRestRouter.delete, Entity.getitem, Entity.delete. unfold_M.
  destruct (int_ ext id) as [n|]; simpl; [|by intros [= _ <-]].
  destruct (Pony.rows (Pony.table (db w) self) !! n); simpl; [done|].
  intros [= _ <-]. by destruct w.
Qed.

Lemma add_raise ext self request id field w ex w' :
  OhMyRestRouter.add ext self request id field w = (Raise ex, w') → w' = w.
Proof.
  unfold OhMyRestRouter.add.
  intros [H|(n & w1 & [_ ->]%lift_run & H)]%bind_raise;
    [by apply lift_run in H as [_ ->]|].
  destruct (negb _); [by injection H as _ <-|].
  destruct (Entity.getattr ext self field) as [[name [ | | |model]|]|];
    try by injection H as _ <-.
  apply bind_raise in H as [H|(json_data & w1 & [_ ->]%lift_run & H)];
    [by apply lift_run in H as [_ ->]|].
  apply bind_raise in H as [H|(result & w1 & _ & H)]; [|done].
  by apply with_db_session_raise in H.
Qed.

Lemma put_raise ext self request w ex w' :
  OhMyRestRouter.put ext self request w = (Raise ex, w') → db w' = db w.
Proof.
  unfold OhMyRestRouter.put.
  intros [H|(json_data & w1 & [_ ->]%lift_run & H)]%bind_raise;
    [by apply lift_run in H as [_ ->]|].
  apply bind_raise in H as [H|([] & w1 & [= <-] & H)]; [done|].
  apply bind_raise in H as [H|(result & w2 & _ & H)]; [|done].
  by apply with_db_session_raise in H as ->.
Qed.

Lemma get_route_read_only ext m request w :
  (handler_of ext (Get m) request w).2 = w.
Proof.
  simpl.
  destruct (args_from_uri_id_cases (OhMyRestRouter.get ext m) request w)
    as [(id & _ & ->)| ->]; [apply get_read_only|done].
Qed.

Lemma handler_raise_keeps_db ext e request w w' ex :
  handler_of ext e request w = (Raise ex, w') → db w' = db w.
Proof.
  destruct e as [m|m|m|m| | ]; simpl; intros H.
  - pose proof (get_route_read_only ext m request w) as Hro. simpl in Hro.
    rewrite H in Hro. simpl in Hro. by subst.
  - destruct (args_from_uri_id_field_cases (OhMyRestRouter.add ext m) request w)
      as [(id & field & _ & Heq)|Heq]; rewrite Heq in H; [|by injection H as _ <-].
    by apply add_raise in H as ->.
  - by apply put_raise in H.
  - destruct (args_from_uri_id_cases (OhMyRestRouter.delete ext m) request w)
      as [(id & _ & Heq)|Heq]; rewrite Heq in H; [|by injection H as _ <-].
    by apply delete_raise in H as ->.
  - pose proof (find_by_name_read_only ext request w) as Hro. rewrite H in Hro.
    simpl in Hro. by subst.
  - pose proof (find_by_email_read_only ext request w) as Hro. rewrite H in Hro.
    simpl in Hro. by subst.
Qed.

(** Every handler of the application is atomic: when it raises, the
    database is the one it found. *)
Theorem failed_request_changes_nothing (ext : externals) (e : endpoint)
    (request : request) (w w' : world) (ex : exn) :
  handler_of ext e request w = (Raise ex, w') → db w' = db w.
Proof. apply handler_raise_keeps_db. Qed.

Lemma failed_request_changes_nothing_witness :
  db (handler_of sample_ext (Put Person)
        (body_request (VDict [("fname", VStr "Ada")])) world3).2 = db world3.
Proof.
  apply (failed_request_changes_nothing sample_ext (Put Person)
           (body_request (VDict [("fname", VStr "Ada")])) world3 _
           (Exn ValueError "Attribute Person.lname is required")).
  vm_compute. reflexivity.
Defined.

(** GET of an entity and the two searches never write: not to the
    database and not to the logger, whatever they are asked and whether
    they answer or fail. *)
Theorem reads_change_nothing (ext : externals) (m : model) (request : request)
    (w : world) :
  (handler_of ext (Get m) request w).2 = w
  ∧ (handler_of ext FindByName request w).2 = w
  ∧ (handler_of ext FindByEmail request w).2 = w.
Proof.
  split; [apply get_route_read_only|].
  split; [apply find_by_name_read_only|apply find_by_email_read_only].
Qed.

(** ** What the router hands to the handlers *)

Lemma decimal_digits s :
  all_chars digit s = true →
  ∀ acc, 0 ≤ acc → ∃ n, decimal acc s = Some n ∧ 0 ≤ n.
Proof.
  induction s as [|c s IH]; simpl; intros Hs acc Hacc; [by exists acc|].
  apply andb_prop in Hs as [Hc Hs]. unfold digit in Hc.
  apply bool_decide_eq_true in Hc as [d Hd]. rewrite Hd.
  apply IH; [done|lia].
Qed.

Lemma int_digits ext s :
  s ≠ "" → all_chars digit s = true → ∃ n, int_ ext s = Return n ∧ 0 ≤ n.
Proof.
  intros Hne Hs. destruct (decimal_digits s Hs 0) as (n & Hn & Hpos); [done|].
  exists n. unfold int_. destruct s; [done|]. by rewrite Hn.
Qed.

Lemma match_pattern_vars p path info :
  match_pattern p path = Some info →
  Forall2 (λ nc kv, nc.1 = kv.1 ∧ all_chars nc.2 kv.2 = true ∧ kv.2 ≠ "")
          (classes_of p) info.
Proof.
  revert path info. induction p as [|[text|name cls] p IH]; intros path info H;
    simpl in *.
  - destruct path; [|discriminate]. inversion H. constructor.
  - destruct (strip_prefix text path) as [rest|]; [|discriminate]. eauto.
  - destruct (span_spec cls path) as [_ Hall].
    destruct (span cls path) as [v rest]; simpl in *.
    destruct v as [|a v]; [discriminate|].
    destruct (match_pattern p rest) as [info'|] eqn:Hm; [|discriminate].
    inversion H; subst. constructor; [done|]. eauto.
Qed.

Lemma setup_app_keywords ext :
  Forall (λ r, ∀ path info,
            match_pattern (route_pattern r) path = Some info →
            keywords_fit ext (route_handler r) info) setup_app.
Proof.
  repeat constructor; intros path info H%match_pattern_vars; simpl in *;
    repeat match goal with
           | H : Forall2 _ (_ :: _) _ |- _ =>
               apply Forall2_cons_inv_l in H as ([? ?] & ? & (? & ? & ?) & ? & ->)
           | H : Forall2 _ [] _ |- _ => apply Forall2_nil_inv_l in H as ->
           end; simpl in *; subst; try done.
  all: try (match goal with
            | Hd : all_chars digit ?v = true, Hn : ?v ≠ "" |- _ =>
                destruct (int_digits ext v Hn Hd) as (n & ? & ?)
            end; eauto 10).
Qed.

(** The router and the handlers fit: whatever path and method resolve to a
    route, the keywords are those the handler takes, [int(id)] succeeds
    with a natural number, and the field is a non-empty word of lower-case
    letters. *)
Theorem resolved_keywords_fit (ext : externals) (method path : string)
    (r : route) (info : list (string * string)) :
  resolve setup_app method path false = Matched r info →
  keywords_fit ext (route_handler r) info.
Proof.
  intros [Hr Hm]%resolve_matched.
  pose proof (setup_app_keywords ext) as Hall. rewrite Forall_forall in Hall.
  by apply (Hall r Hr path).
Qed.

Lemma resolved_keywords_fit_witness :
  keywords_fit sample_ext (Get Person) [("id", "12")].
Proof.
  apply (resolved_keywords_fit sample_ext "GET" "/person/12"
           (Route "GET" [Lit "/person"; Lit "/"; Var "id" digit] (Get Person)
                  "person_get")).
  reflexivity.
Defined.

Lemma app_cons a (p s : string) : String a p +:+ s = String a (p +:+ s).
Proof. reflexivity. Qed.

Lemma strip_prefix_app p s : strip_prefix p (p +:+ s) = Some s.
Proof.
  induction p as [|a p IH]; [done|]. rewrite app_cons. cbn [strip_prefix].
  by rewrite Ascii.eqb_refl.
Qed.

Lemma span_app cls d rest :
  all_chars cls d = true →
  span cls (d +:+ rest) = (d +:+ (span cls rest).1, (span cls rest).2).
Proof.
  induction d as [|a d IH]; intros H;
    [change ("" +:+ rest) with rest; destruct (span cls rest); reflexivity|].
  cbn [all_chars] in H. apply andb_prop in H as [Ha H].
  rewrite !app_cons. cbn [span]. by rewrite Ha, IH.
Qed.

Lemma app_empty_r (s : string) : s +:+ "" = s.
Proof. induction s as [|a s IH]; [done|]. rewrite app_cons. congruence. Qed.

Lemma match_lit text p rest :
  match_pattern (Lit text :: p) (text +:+ rest) = match_pattern p rest.
Proof. cbn [match_pattern]. by rewrite strip_prefix_app. Qed.

Lemma match_var name cls p d rest :
  all_chars cls d = true → d ≠ "" → span cls rest = ("", rest) →
  match_pattern (Var name cls :: p) (d +:+ rest)
  = (info ← match_pattern p rest; Some ((name, d) :: info)).
Proof.
  intros Hd Hne Hrest. cbn [match_pattern].
  rewrite (span_app cls d rest Hd), Hrest. cbn [fst snd].
  rewrite app_empty_r. by destruct d.
Qed.

Lemma match_end (path : string) :
  match_pattern [] path = match path with EmptyString => Some [] | _ => None end.
Proof. reflexivity. Qed.

Lemma mp_id a d :
  d ≠ "" → all_chars digit d = true →
  match_pattern [Lit a; Lit "/"; Var "id" digit] (a +:+ "/" +:+ d)
  = Some [("id", d)].
Proof.
  intros Hne Hd. rewrite !match_lit. rewrite <- (app_empty_r d) at 1.
  by rewrite match_var.
Qed.

Lemma mp_id_more a d x :
  d ≠ "" → all_chars digit d = true →
  match_pattern [Lit a; Lit "/"; Var "id" digit] (a +:+ "/" +:+ d +:+ "/addto/" +:+ x)
  = None.
Proof. intros Hne Hd. rewrite !match_lit. by rewrite match_var. Qed.

Lemma mp_add a d f :
  d ≠ "" → all_chars digit d = true →
  f ≠ "" → all_chars lower_letter f = true →
  match_pattern [Lit a; Lit "/"; Var "id" digit; Lit "/addto/"; Var "field" lower_letter]
                (a +:+ "/" +:+ d +:+ "/addto/" +:+ f)
  = Some [("id", d); ("field", f)].
Proof.
  intros Hne Hd Hnf Hf. rewrite !match_lit. rewrite match_var by done.
  rewrite match_lit. rewrite <- (app_empty_r f) at 1. by rewrite match_var.
Qed.

Lemma mp_add_short a d :
  d ≠ "" → all_chars digit d = true →
  match_pattern [Lit a; Lit "/"; Var "id" digit; Lit "/addto/"; Var "field" lower_letter]
                (a +:+ "/" +:+ d)
  = None.
Proof.
  intros Hne Hd. rewrite !match_lit. rewrite <- (app_empty_r d) at 1.
  by rewrite match_var.
Qed.

Lemma mp_put a : match_pattern [Lit a] a = Some [].
Proof. rewrite <- (app_empty_r a) at 2. by rewrite match_lit. Qed.

Lemma mp_put_long a x : match_pattern [Lit a] (a +:+ "/" +:+ x) = None.
Proof. by rewrite match_lit. Qed.

Lemma mp_bare a p : match_pattern (Lit a :: Lit "/" :: p) a = None.
Proof. rewrite <- (app_empty_r a) at 2. by rewrite match_lit. Qed.

(** The routes of another model never match a path under this one's
    prefix. *)
Lemma resolve_other_model m m' rest method x seen :
  m' ≠ m →
  resolve (OhMyRestRouter.init m' ++ rest) method (prefix m +:+ x) seen
  = resolve rest method (prefix m +:+ x) seen.
Proof. destruct m, m'; try done; intros _; reflexivity. Qed.

Lemma setup_app_split m :
  ∃ pre post,
    setup_app = pre ++ OhMyRestRouter.init m ++ post
    ∧ ∀ method x seen,
        resolve setup_app method (prefix m +:+ x) seen
        = resolve (OhMyRestRouter.init m ++ post) method (prefix m +:+ x) seen.
Proof.
  destruct m.
  - exists [], (OhMyRestRouter.init Group ++ OhMyRestRouter.init AddressBook
                ++ drop 12 setup_app). done.
  - exists (OhMyRestRouter.init Person),
           (OhMyRestRouter.init AddressBook ++ drop 12 setup_app).
    split; [done|]. intros. unfold setup_app.
    by rewrite (resolve_other_model Group Person).
  - exists (OhMyRestRouter.init Person ++ OhMyRestRouter.init Group),
           (drop 12 setup_app).
    split; [done|]. intros. unfold setup_app.
    rewrite (resolve_other_model AddressBook Person) by done.
    by rewrite (resolve_other_model AddressBook Group).
Qed.

(** URLs built the way [__init__] registers them resolve to the handler
    they were registered for, with the id and the field as keywords. *)
Theorem url_round_trip (m : model) (d f : string) :
  d ≠ "" → all_chars digit d = true →
  f ≠ "" → all_chars lower_letter f = true →
  (∃ r, resolve setup_app "GET" (prefix m +:+ "/" +:+ d) false
        = Matched r [("id", d)] ∧ route_handler r = Get m)
  ∧ (∃ r, resolve setup_app "DELETE" (prefix m +:+ "/" +:+ d) false
          = Matched r [("id", d)] ∧ route_handler r = Del m)
  ∧ (∃ r, resolve setup_app "PUT" (prefix m) false
          = Matched r [] ∧ route_handler r = Put m)
  ∧ (∃ r, resolve setup_app "PUT" (prefix m +:+ "/" +:+ d +:+ "/addto/" +:+ f) false
          = Matched r [("id", d); ("field", f)] ∧ route_handler r = Add m).
Proof.
  intros Hne Hd Hnf Hf.
  destruct (setup_app_split m) as (pre & post & _ & Hskip).
  repeat split.
  - rewrite Hskip. unfold OhMyRestRouter.init.
    change ("/" +:+ lower (model_name m)) with (prefix m).
    cbn [app resolve route_pattern route_method]. rewrite mp_id by done.
    eexists. split; reflexivity.
  - rewrite Hskip. unfold OhMyRestRouter.init.
    change ("/" +:+ lower (model_name m)) with (prefix m).
    cbn [app resolve route_pattern route_method].
    rewrite mp_id, mp_add_short, mp_put_long by done.
    eexists. split; reflexivity.
  - rewrite <- (app_empty_r (prefix m)), Hskip, app_empty_r.
    unfold OhMyRestRouter.init.
    change ("/" +:+ lower (model_name m)) with (prefix m).
    cbn [app resolve route_pattern route_method].
    rewrite !mp_bare, mp_put.
    eexists. split; reflexivity.
  - rewrite Hskip. unfold OhMyRestRouter.init.
    change ("/" +:+ lower (model_name m)) with (prefix m).
    cbn [app resolve route_pattern route_method].
    rewrite mp_id_more, mp_add by done.
    eexists. split; reflexivity.
Qed.

Lemma url_round_trip_witness :
  (∃ r, resolve setup_app "GET" "/group/42" false
        = Matched r [("id", "42")] ∧ route_handler r = Get Group)
  ∧ (∃ r, resolve setup_app "DELETE" "/group/42" false
          = Matched r [("id", "42")] ∧ route_handler r = Del Group)
  ∧ (∃ r, resolve setup_app "PUT" "/group" false
          = Matched r [] ∧ route_handler r = Put Group)
  ∧ (∃ r, resolve setup_app "PUT" "/group/42/addto/members" false
          = Matched r [("id", "42"); ("field", "members")]
          ∧ route_handler r = Add Group).
Proof.
  apply (url_round_trip Group "42" "members"); done.
Defined.

(** ** The serializer on JSON documents *)







(** ** validate_emails *)

Lemma all_first_failure f l1 e l2 :
  Forall (λ x, f x = Return true) l1 → f e ≠ Return true →
  all_ f (l1 ++ e :: l2) = f e.
Proof.
  intros Hl1 He. induction Hl1 as [|x l1 Hx _ IH]; simpl.
  - by destruct (f e) as [[]|].
  - by rewrite Hx.
Qed.

(** The outcome of [validate_emails] is decided without looking further
    than needed: anything but a list, an empty list and a list of more than
    ten elements are refused without a single call of the address check;
    otherwise the first element that does not pass decides, by its [False]
    or by the exception it raises, and the elements after it are never
    checked. *)
Theorem validate_emails_outcome (ext : externals) :
  (∀ v, (∀ l, v ≠ VList l) → validate_emails ext v = Return false)
  ∧ (∀ l, (length l < 1 ∨ 10 < length l)%nat →
          validate_emails ext (VList l) = Return false)
  ∧ (∀ l1 e l2,
       (length (l1 ++ e :: l2) ≤ 10)%nat →
       Forall (λ x, validate_email ext x = Return true) l1 →
       validate_email ext e ≠ Return true →
       validate_emails ext (VList (l1 ++ e :: l2)) = validate_email ext e).
Proof.
  split; [|split].
  - intros v Hv. destruct v; try done. by destruct (Hv l).
  - intros l Hl. simpl. destruct (Nat.ltb_spec (length l) 1); [done|].
    destruct (Nat.ltb_spec 10 (length l)); [done|lia].
  - intros l1 e l2 Hlen Hl1 He. simpl.
    destruct (Nat.ltb_spec (length (l1 ++ e :: l2)) 1) as [Hlt|_].
    { rewrite length_app in Hlt. simpl in Hlt. lia. }
    destruct (Nat.ltb_spec 10 (length (l1 ++ e :: l2))); [lia|].
    by apply all_first_failure.
Qed.

Lemma validate_emails_outcome_witness :
  validate_emails sample_ext (VStr "ada@example.com") = Return false
  ∧ validate_emails sample_ext (VList []) = Return false
  ∧ validate_emails sample_ext
      (VList [VStr "ada@example.com"; VStr "not-an-email"; VInt 7])
    = Return false.
Proof.
  destruct (validate_emails_outcome sample_ext) as (H1 & H2 & H3).
  split; [apply H1; discriminate|]. split; [apply H2; simpl; lia|].
  apply (H3 [VStr "ada@example.com"] (VStr "not-an-email") [VInt 7]).
  - simpl. lia.
  - repeat constructor.
  - discriminate.
Defined.

(** ** AddToCollection: both sides, the frame, the other failures *)

Lemma link_of_reverse m target r fwd :
  Pony.link_of m target = Some (r, fwd) →
  Pony.link_of target m = Some (r, negb fwd).
Proof. destruct m, target; intros [= <- <-]; reflexivity. Qed.

Lemma orient_reverse fwd owner item :
  Pony.orient (negb fwd) item owner = Pony.orient fwd owner item.
Proof. by destruct fwd. Qed.

Lemma declared_back ext self field model :
  dict_get (attrs ext self) field = Some (Pony.SetOf model) →
  ∃ back, dict_get (attrs ext model) back = Some (Pony.SetOf self).
Proof.
  intros H%dict_get_elem.
  assert (Forall (λ a, ∀ model, a.2 = Pony.SetOf model →
                       ∃ back, dict_get (attrs ext model) back = Some (Pony.SetOf self))
                 (attrs ext self)) as Hall.
  { destruct self; repeat constructor; simpl; intros ? [=]; subst;
      first [by exists "members"|by exists "groups"|by exists "people"
            |by exists "address_books"]. }
  rewrite Forall_forall in Hall. by apply (Hall _ H).
Qed.

(** What a successful [add] did. *)
Lemma add_inv ext self request id field w resp w1 :
  OhMyRestRouter.add ext self request id field w = (Return resp, w1) →
  ∃ n model r fwd item vals vals',
    int_ ext id = Return n
    ∧ dict_get (attrs ext self) field = Some (Pony.SetOf model)
    ∧ Pony.link_of self model = Some (r, fwd)
    ∧ Pony.rows (Pony.table (db w) self) !! n = Some vals
    ∧ Pony.rows (Pony.table (db w) model) !! item = Some vals'
    ∧ w1 = World (Pony.set_links (db w) r
                    ({[ Pony.orient fwd n item ]} ∪ Pony.links (db w) r)) (log w).
Proof.
  unfold OhMyRestRouter.add.
  intros (n & w0 & [Hid ->]%lift_run & H)%bind_return.
  destruct (negb _); [done|].
  unfold Entity.getattr in H.
  destruct (dict_get (attrs ext self) field) as [decl|] eqn:Hattr;
    [|by destruct (entity_api ext field)].
  destruct decl as [ | | |model]; try done.
  destruct (declared_set_link _ _ _ _ Hattr) as (r & fwd & Hlink).
  apply bind_return in H as (json_data & w0 & [_ ->]%lift_run & H).
  apply bind_return in H as (result & w2 & H & [= _ <-]).
  unfold Entity.getitem, Pony.Set_add, subscript in H. unfold_M. simpl in H.
  destruct (Pony.rows (Pony.table (db w) self) !! n) as [vals|] eqn:Hrow;
    simpl in H; [|done].
  destruct (match json_data with VDict d => _ | _ => _ end) as [key|]; simpl in H;
    [|done].
  destruct (Pony.pk_of_key ext key) as [item|]; simpl in H; [|done].
  destruct (Pony.rows (Pony.table (db w) model) !! item) as [vals'|] eqn:Hitem;
    simpl in H; [|done].
  rewrite Hlink in H. injection H as _ <-.
  exists n, model, r, fwd, item, vals, vals'. by rewrite Hid.
Qed.

Lemma elem_of_related s m target r fwd owner item :
  Pony.link_of m target = Some (r, fwd) →
  item ∈ Pony.related s m target owner ↔ Pony.orient fwd owner item ∈ Pony.links s r.
Proof.
  intros Hl. unfold Pony.related. rewrite Hl, merge_sort_Permutation.
  by rewrite elem_of_elements, elem_of_members_of.
Qed.

Lemma related_no_link s m target owner :
  Pony.link_of m target = None → Pony.related s m target owner = [].
Proof. intros Hl. unfold Pony.related. by rewrite Hl. Qed.

Lemma links_set_links_ne s r r' l :
  r' ≠ r → Pony.links (Pony.set_links s r l) r' = Pony.links s r'.
Proof. by destruct r, r'. Qed.

(** The relationship is stored once for both sides: after a successful
    [add] to a collection of the parent, the item's own collection that
    points back holds the parent, exactly once, and Get of the item shows
    it. *)
Theorem add_reaches_both_sides (ext : externals) (self : model) (request : request)
    (id field : string) (w w1 : world) (resp : retval) :
  OhMyRestRouter.add ext self request id field w = (Return resp, w1) →
  ∃ n model item back,
    int_ ext id = Return n
    ∧ dict_get (attrs ext self) field = Some (Pony.SetOf model)
    ∧ dict_get (attrs ext model) back = Some (Pony.SetOf self)
    ∧ count_occ Z.eq_dec (Pony.related (db w1) self model n) item = 1%nat
    ∧ count_occ Z.eq_dec (Pony.related (db w1) model self item) n = 1%nat
    ∧ ∀ request' id', int_ ext id' = Return item →
        ∃ data, OhMyRestRouter.get ext model request' id' w1
                = (Return (Response 200 (VDict data)), w1)
          ∧ dict_get data back
            = Some (VList (VInt <$> Pony.related (db w1) model self item)).
Proof.
  intros (n & model & r & fwd & item & vals & vals' & Hid & Hattr & Hlink & Hrow
          & Hitem & ->)%add_inv.
  destruct (declared_back _ _ _ _ Hattr) as [back Hback].
  exists n, model, item, back. repeat (split; [done|]). cbn [db].
  assert (Pony.orient fwd n item
          ∈ Pony.links (Pony.set_links (db w) r
                          ({[Pony.orient fwd n item]} ∪ Pony.links (db w) r)) r) as Hin.
  { rewrite links_set_links. set_solver. }
  split; [by apply (related_count _ _ _ r fwd)|].
  split.
  - apply (related_count _ _ _ r (negb fwd)); [by apply link_of_reverse|].
    by rewrite orient_reverse.
  - intros request' id' Hid'.
    eapply get_serializes_keys; [done| |done].
    cbn [db]. rewrite table_set_links. exact Hitem.
Qed.

Lemma add_reaches_both_sides_witness :
  ∃ n model item back,
    int_ sample_ext "1" = Return n
    ∧ dict_get (attrs sample_ext Person) "groups" = Some (Pony.SetOf model)
    ∧ dict_get (attrs sample_ext model) back = Some (Pony.SetOf Person)
    ∧ count_occ Z.eq_dec (Pony.related (db world_cycle) Person model n) item = 1%nat
    ∧ count_occ Z.eq_dec (Pony.related (db world_cycle) model Person item) n = 1%nat
    ∧ ∀ request' id', int_ sample_ext id' = Return item →
        ∃ data, OhMyRestRouter.get sample_ext model request' id' world_cycle
                = (Return (Response 200 (VDict data)), world_cycle)
          ∧ dict_get data back
            = Some (VList (VInt <$> Pony.related (db world_cycle) model Person item)).
Proof.
  apply (add_reaches_both_sides sample_ext Person
           (body_request (VDict [("id", VInt 1)])) "1" "groups" world5 world_cycle
           (Response 200
              (VDict [("id", VInt 1); ("fname", VStr "Ada"); ("lname", VStr "Lovelace");
                      ("emails", VList [VStr "ada@example.com"]);
                      ("groups", VList [VInt 1]); ("address_books", VList [VInt 1])]))).
  vm_compute. reflexivity.
Defined.

(** A successful [add] writes one pair into one link table and nothing
    else: no row of any table changes, the logger gets nothing, and every
    collection of every entity keeps the members it had. *)
Theorem add_only_adds (ext : externals) (self : model) (request : request)
    (id field : string) (w w1 : world) (resp : retval) :
  OhMyRestRouter.add ext self request id field w = (Return resp, w1) →
  log w1 = log w
  ∧ (∀ m, Pony.table (db w1) m = Pony.table (db w) m)
  ∧ (∀ r, Pony.links (db w) r ⊆ Pony.links (db w1) r)
  ∧ (∀ m target owner x,
       x ∈ Pony.related (db w) m target owner →
       x ∈ Pony.related (db w1) m target owner).
Proof.
  intros (n & model & r & fwd & item & vals & vals' & Hid & Hattr & Hlink & Hrow
          & Hitem & ->)%add_inv.
  cbn [db log].
  assert (∀ r', Pony.links (db w) r'
                ⊆ Pony.links (Pony.set_links (db w) r
                                ({[Pony.orient fwd n item]} ∪ Pony.links (db w) r)) r')
    as Hsub.
  { intros r'. destruct (decide (r' = r)) as [->|Hne].
    - rewrite links_set_links. set_solver.
    - by rewrite links_set_links_ne. }
  split; [done|]. split; [intros m; apply table_set_links|]. split; [exact Hsub|].
  intros m target owner x.
  destruct (Pony.link_of m target) as [[r' fwd']|] eqn:Hl.
  - rewrite !(elem_of_related _ _ _ _ _ _ _ Hl). apply Hsub.
  - by rewrite !related_no_link.
Qed.

Lemma add_only_adds_witness :
  log world_cycle = log world5
  ∧ (∀ m, Pony.table (db world_cycle) m = Pony.table (db world5) m)
  ∧ (∀ r, Pony.links (db world5) r ⊆ Pony.links (db world_cycle) r)
  ∧ (∀ m target owner x,
       x ∈ Pony.related (db world5) m target owner →
       x ∈ Pony.related (db world_cycle) m target owner).
Proof.
  apply (add_only_adds sample_ext Person
           (body_request (VDict [("id", VInt 1)])) "1" "groups" world5 world_cycle
           (Response 200
              (VDict [("id", VInt 1); ("fname", VStr "Ada"); ("lname", VStr "Lovelace");
                      ("emails", VList [VStr "ada@example.com"]);
                      ("groups", VList [VInt 1]); ("address_books", VList [VInt 1])]))).
  vm_compute. reflexivity.
Defined.



(** ** Delete: what goes and what stays *)

Lemma link_of_ends m target r fwd :
  Pony.link_of m target = Some (r, fwd) →
  ends r = if fwd then (m, target) else (target, m).
Proof. destruct m, target; intros [= <- <-]; reflexivity. Qed.

Lemma touches_orient m target r fwd owner x self n :
  Pony.link_of m target = Some (r, fwd) →
  touches self n r (Pony.orient fwd owner x)
  ↔ (m, owner) = (self, n) ∨ (target, x) = (self, n).
Proof.
  intros Hl%link_of_ends. unfold touches. rewrite Hl.
  destruct fwd; simpl; naive_solver.
Qed.

Lemma links_delete ext self n s r p :
  p ∈ Pony.links (Entity.delete ext self n s).2 r
  ↔ p ∈ Pony.links s r ∧ ¬ touches self n r p.
Proof.
  unfold touches.
  destruct self, r; unfold Entity.delete, modify; simpl; unfold Pony.Set_clear; simpl;
    rewrite ?elem_of_filter; naive_solver.
Qed.

Lemma delete_inv ext self request id w r w' :
  OhMyRestRouter.delete ext self request id w = (Return r, w') →
  ∃ n vals, int_ ext id = Return n
    ∧ Pony.rows (Pony.table (db w) self) !! n = Some vals
    ∧ r = PyNone
    ∧ w' = World (Entity.delete ext self n (db w)).2 (log w).
Proof.
  unfold OhMyRestRouter.delete, Entity.getitem. unfold_M.
  destruct (int_ ext id) as [n|]; simpl; [|done].
  destruct (Pony.rows (Pony.table (db w) self) !! n) as [vals|] eqn:Hrow; simpl;
    [|done].
  intros [= <- <-]. by exists n, vals.
Qed.

(** A successful Delete removes one row and the memberships of that
    entity, and nothing else: it does not cascade.  Every other row of
    every table stays; the deleted entity is in no collection any more; and
    a membership between two other entities is there after the Delete
    exactly when it was there before. *)
Theorem delete_does_not_cascade (ext : externals) (self : model) (request : request)
    (id : string) (w w' : world) (r : retval) :
  OhMyRestRouter.delete ext self request id w = (Return r, w') →
  ∃ n, int_ ext id = Return n
    ∧ log w' = log w
    ∧ Pony.rows (Pony.table (db w') self) !! n = None
    ∧ (∀ m pk, (m, pk) ≠ (self, n) →
         Pony.rows (Pony.table (db w') m) !! pk = Pony.rows (Pony.table (db w) m) !! pk)
    ∧ (∀ target pk, n ∉ Pony.related (db w') target self pk)
    ∧ (∀ target, Pony.related (db w') self target n = [])
    ∧ (∀ m target owner x,
         (m, owner) ≠ (self, n) → (target, x) ≠ (self, n) →
         x ∈ Pony.related (db w') m target owner
         ↔ x ∈ Pony.related (db w) m target owner).
Proof.
  intros (n & vals & Hid & Hrow & -> & ->)%delete_inv.
  exists n. cbn [db log]. split; [done|]. split; [done|].
  split.
  { unfold Entity.delete, modify. cbn [snd]. rewrite table_set_table.
    apply lookup_delete_eq. }
  split; [intros m pk Hne; by apply delete_keeps_rows|].
  assert (∀ m target owner x,
            x ∈ Pony.related (Entity.delete ext self n (db w)).2 m target owner
            ↔ x ∈ Pony.related (db w) m target owner
              ∧ (m, owner) ≠ (self, n) ∧ (target, x) ≠ (self, n)) as Hrel.
  { intros m target owner x.
    destruct (Pony.link_of m target) as [[r fwd]|] eqn:Hl.
    - rewrite !(elem_of_related _ _ _ _ _ _ _ Hl), links_delete.
      rewrite (touches_orient _ _ _ _ _ _ _ _ Hl). tauto.
    - rewrite !related_no_link by done. set_solver. }
  split; [|split].
  - intros target pk [_ [_ Hne]]%Hrel. done.
  - intros target. apply elem_of_nil_inv. intros x [_ [Hne _]]%Hrel. done.
  - intros m target owner x Hne1 Hne2. rewrite Hrel. tauto.
Qed.

Lemma delete_does_not_cascade_witness :
  ∃ n, int_ sample_ext "1" = Return n
    ∧ log (OhMyRestRouter.delete sample_ext Person (body_request VNone) "1" world5).2
      = log world5
    ∧ Pony.rows (Pony.table
        (db (OhMyRestRouter.delete sample_ext Person (body_request VNone) "1" world5).2)
        Person) !! n = None.
Proof.
  destruct (delete_does_not_cascade sample_ext Person (body_request VNone) "1" world5
              (OhMyRestRouter.delete sample_ext Person (body_request VNone) "1" world5).2
              PyNone) as (n & H1 & H2 & H3 & _).
  - vm_compute. reflexivity.
  - exists n. split; [exact H1|]. split; [exact H2|exact H3].
Defined.

(** ** Create: what it writes, and reading it back *)

Lemma flush_inv m pk vals s obj s' :
  Entity.flush m pk vals s = (Return obj, s') →
  let key := default (Entity.next_pk (Pony.table s m)) pk in
  Pony.rows (Pony.table s m) !! key = None
  ∧ ¬ Entity.collides m (Pony.rows (Pony.table s m)) vals
  ∧ obj = Pony.Instance m key vals
  ∧ s' = Pony.set_table s m
           (Pony.Table (<[key := vals]> (Pony.rows (Pony.table s m)))
                       (Z.max (Pony.seq (Pony.table s m)) key)).
Proof.
  unfold Entity.flush. unfold_M.
  intros H. cbn -[Entity.collides Entity.next_pk default] in H |- *.
  set (key := default (Entity.next_pk (Pony.table s m)) pk) in *.
  destruct (Pony.rows (Pony.table s m) !! key) as [row|] eqn:Hkey;
    cbn -[Entity.collides Entity.next_pk default] in H; [done|].
  case_bool_decide as Hc; cbn -[Entity.collides Entity.next_pk default] in H; [done|].
  by injection H as <- <-.
Qed.

(** What a successful [put] did. *)
Lemma put_inv ext m request w resp w1 :
  OhMyRestRouter.put ext m request w = (Return resp, w1) →
  ∃ kwargs pk vals,
    json request = Return (VDict kwargs)
    ∧ Entity.new ext m kwargs = Return (pk, vals)
    ∧ let key := default (Entity.next_pk (Pony.table (db w) m)) pk in
      Pony.rows (Pony.table (db w) m) !! key = None
      ∧ ¬ Entity.collides m (Pony.rows (Pony.table (db w) m)) vals
      ∧ w1 = World (Pony.set_table (db w) m
                      (Pony.Table (<[key := vals]> (Pony.rows (Pony.table (db w) m)))
                                  (Z.max (Pony.seq (Pony.table (db w) m)) key)))
                   (log w ++ [LogRecord "debug" "adding to the database: %s"
                                        (LogValue (VDict kwargs))])
      ∧ resp = Response 200 (Entity.to_dict ext (db w1) (Pony.Instance m key vals) true).
Proof.
  unfold OhMyRestRouter.put.
  intros (json_data & w0 & [Hjson ->]%lift_run & H)%bind_return.
  apply bind_return in H as ([] & w0 & [= <-] & H).
  apply bind_return in H as (data & w2 & H & [= <- <-]).
  unfold with_db_session, Pony.db_session, keywords in H. unfold_M. simpl in H.
  destruct json_data as [ | | | | |kwargs| ]; try done. simpl in H.
  destruct (Entity.new ext m kwargs) as [[pk vals]|] eqn:Hnew; simpl in H; [|done].
  destruct (Entity.flush m pk vals (db w)) as [[obj|] s'] eqn:Hflush; simpl in H;
    [|done].
  injection H as <- <-.
  apply flush_inv in Hflush as (Hfree & Hc & -> & ->).
  exists kwargs, pk, vals. by rewrite Hjson.
Qed.


Lemma links_set_table s m t r : Pony.links (Pony.set_table s m t) r = Pony.links s r.
Proof. by destruct m, r. Qed.



(** A successful Create writes one row under a key that was free, and one
    record to the logger; every row that was there is still there,
    unchanged, and no link table is touched. *)
Theorem create_only_adds (ext : externals) (m : model) (request : request)
    (w w1 : world) (resp : retval) :
  OhMyRestRouter.put ext m request w = (Return resp, w1) →
  ∃ key vals json_data,
    json request = Return json_data
    ∧ Pony.rows (Pony.table (db w) m) !! key = None
    ∧ Pony.rows (Pony.table (db w1) m) !! key = Some vals
    ∧ (∀ m' pk, (m', pk) ≠ (m, key) →
         Pony.rows (Pony.table (db w1) m') !! pk = Pony.rows (Pony.table (db w) m') !! pk)
    ∧ (∀ r, Pony.links (db w1) r = Pony.links (db w) r)
    ∧ log w1 = log w ++ [LogRecord "debug" "adding to the database: %s"
                                   (LogValue json_data)].
Proof.
  intros (kwargs & pk & vals & Hjson & Hnew & Hfree & Hc & Hw1 & ->)%put_inv.
  set (key := default (Entity.next_pk (Pony.table (db w) m)) pk) in *.
  exists key, vals, (VDict kwargs). rewrite Hw1. cbn [db log].
  split; [done|]. split; [done|]. split.
  { rewrite table_set_table. apply lookup_insert_eq. }
  split; [|split; [intros r; apply links_set_table|done]].
  intros m' pk' Hne. destruct (decide (m' = m)) as [->|Hm].
  - rewrite table_set_table. cbn [Pony.rows]. apply lookup_insert_ne. congruence.
  - by rewrite table_set_table_ne.
Qed.

Lemma create_only_adds_witness :
  ∃ key vals json_data,
    json (body_request ada) = Return json_data
    ∧ Pony.rows (Pony.table (db world0) Person) !! key = None
    ∧ Pony.rows (Pony.table
                   (db (OhMyRestRouter.put sample_ext Person (body_request ada) world0).2)
                   Person) !! key = Some vals
    ∧ (∀ m' pk, (m', pk) ≠ (Person, key) →
         Pony.rows (Pony.table
                      (db (OhMyRestRouter.put sample_ext Person (body_request ada)
                             world0).2) m') !! pk
         = Pony.rows (Pony.table (db world0) m') !! pk)
    ∧ (∀ r, Pony.links
              (db (OhMyRestRouter.put sample_ext Person (body_request ada) world0).2) r
            = Pony.links (db world0) r)
    ∧ log (OhMyRestRouter.put sample_ext Person (body_request ada) world0).2
      = log world0 ++ [LogRecord "debug" "adding to the database: %s"
                                 (LogValue json_data)].
Proof.
  apply (create_only_adds sample_ext Person (body_request ada) world0 _
           (Response 200
              (VDict [("id", VInt 1); ("fname", VStr "Ada"); ("lname", VStr "Lovelace");
                      ("emails", VList [VStr "ada@example.com"]);
                      ("groups", VList []); ("address_books", VList [])]))).
  vm_compute. reflexivity.
Defined.

(** ** Invariants of the reachable worlds *)

(** A property of the database that holds at the start and that every
    successful Create, AddToCollection and Delete keeps holds in every
    reachable world: the other handlers do not write, and a failed request
    is rolled back. *)
Lemma reachable_db_ind ext (I : Pony.store → Prop) :
  I Pony.empty →
  (∀ m request w resp w1,
     I (db w) → OhMyRestRouter.put ext m request w = (Return resp, w1) → I (db w1)) →
  (∀ m request id field w resp w1,
     I (db w) → OhMyRestRouter.add ext m request id field w = (Return resp, w1) →
     I (db w1)) →
  (∀ m request id w resp w1,
     I (db w) → OhMyRestRouter.delete ext m request id w = (Return resp, w1) →
     I (db w1)) →
  ∀ w, reachable ext w → I (db w).
Proof.
  intros Hstart Hput Hadd Hdel w Hw.
  induction Hw as [|w e req Hw IH]; [exact Hstart|].
  assert (∀ h : request → M world retval,
            (h req w).2 = w → I (db (error_middleware h req w).2)) as Hread.
  { intros h Hro. unfold error_middleware.
    destruct (h req w) as [[resp|ex] w']; simpl in *; by subst. }
  assert (∀ h : request → M world retval,
            (∀ ex w', h req w = (Raise ex, w') → db w' = db w) →
            (∀ resp w', h req w = (Return resp, w') → I (db w')) →
            I (db (error_middleware h req w).2)) as Hwrite.
  { intros h Hr Hok. unfold error_middleware.
    destruct (h req w) as [[resp|ex] w'] eqn:Hrun; simpl.
    - by eapply Hok.
    - by rewrite (Hr _ _ eq_refl). }
  destruct e as [m|m|m|m| | ].
  - apply Hread, get_route_read_only.
  - apply Hwrite; simpl.
    + intros ex w' H.
      destruct (args_from_uri_id_field_cases (OhMyRestRouter.add ext m) req w)
        as [(id & field & _ & Heq)|Heq]; rewrite Heq in H; [|by injection H as _ <-].
      by apply add_raise in H as ->.
    + intros resp w' H.
      destruct (args_from_uri_id_field_cases (OhMyRestRouter.add ext m) req w)
        as [(id & field & _ & Heq)|Heq]; rewrite Heq in H; [|done].
      by eapply Hadd.
  - apply Hwrite; simpl.
    + intros ex w' H. by apply put_raise in H.
    + intros resp w' H. by eapply Hput.
  - apply Hwrite; simpl.
    + intros ex w' H.
      destruct (args_from_uri_id_cases (OhMyRestRouter.delete ext m) req w)
        as [(id & _ & Heq)|Heq]; rewrite Heq in H; [|by injection H as _ <-].
      by apply delete_raise in H as ->.
    + intros resp w' H.
      destruct (args_from_uri_id_cases (OhMyRestRouter.delete ext m) req w)
        as [(id & _ & Heq)|Heq]; rewrite Heq in H; [|done].
      by eapply Hdel.
  - apply Hread, find_by_name_read_only.
  - apply Hread, find_by_email_read_only.
Qed.

Lemma add_keeps_tables ext self request id field w resp w1 :
  OhMyRestRouter.add ext self request id field w = (Return resp, w1) →
  ∀ m, Pony.table (db w1) m = Pony.table (db w) m.
Proof.
  intros (n & model & r & fwd & item & vals & vals' & _ & _ & _ & _ & _ & ->)%add_inv m.
  cbn [db]. apply table_set_links.
Qed.

Lemma delete_rows_subset ext self n s m pk row :
  Pony.rows (Pony.table (Entity.delete ext self n s).2 m) !! pk = Some row →
  Pony.rows (Pony.table s m) !! pk = Some row.
Proof.
  destruct (decide ((m, pk) = (self, n))) as [[= -> ->]|Hne].
  - unfold Entity.delete, modify. cbn [snd]. rewrite table_set_table.
    cbn [Pony.rows]. by rewrite lookup_delete_eq.
  - by rewrite delete_keeps_rows.
Qed.

Lemma unique_rows_reachable ext w : reachable ext w → unique_rows (db w).
Proof.
  apply reachable_db_ind.
  - intros m cols pk1 pk2 row1 row2 k _ H. by destruct m.
  - intros m request w0 resp w1 Hinv
      (kwargs & pk & vals & _ & _ & Hfree & Hc & -> & _)%put_inv.
    set (key := default (Entity.next_pk (Pony.table (db w0) m)) pk) in *.
    cbn [db]. intros m' cols pk1 pk2 row1 row2 k Hcols H1 H2 Hk1 Hk2.
    destruct (decide (m' = m)) as [->|Hm].
    2: { rewrite table_set_table_ne in H1, H2 by done. by eapply Hinv. }
    rewrite table_set_table in H1, H2. cbn [Pony.rows] in H1, H2.
    assert (∀ pk' row', Pony.rows (Pony.table (db w0) m) !! pk' = Some row' →
                        Entity.key_of cols row' = Some k →
                        Entity.key_of cols vals = Some k → False) as Hclash.
    { intros pk' row' Hrow' Hk' Hv. apply Hc. unfold Entity.collides.
      apply Exists_exists. exists cols. split; [done|]. split; [by rewrite Hv|].
      apply Exists_exists. exists (pk', row'). split; [|simpl; congruence].
      by apply elem_of_map_to_list. }
    rewrite lookup_insert in H1, H2. repeat case_decide; simplify_eq; try done.
    + by destruct (Hclash pk2 row2).
    + by destruct (Hclash pk1 row1).
    + by eapply Hinv.
  - intros m request id field w0 resp w1 Hinv Hadd.
    pose proof (add_keeps_tables _ _ _ _ _ _ _ _ Hadd) as Htab.
    intros m' cols pk1 pk2 row1 row2 k Hcols H1 H2. rewrite Htab in H1, H2.
    by eapply Hinv.
  - intros m request id w0 resp w1 Hinv (n & vals & _ & _ & _ & ->)%delete_inv.
    cbn [db]. intros m' cols pk1 pk2 row1 row2 k Hcols H1%delete_rows_subset
      H2%delete_rows_subset.
    by eapply Hinv.
Qed.

Lemma no_dangling_reachable ext w : reachable ext w → no_dangling (db w).
Proof.
  apply reachable_db_ind.
  - intros r p Hp. destruct r; set_solver.
  - intros m request w0 resp w1 Hinv
      (kwargs & pk & vals & _ & _ & _ & _ & -> & _)%put_inv.
    set (key := default (Entity.next_pk (Pony.table (db w0) m)) pk) in *.
    cbn [db]. intros r p Hp. rewrite links_set_table in Hp.
    destruct (Hinv r p Hp) as [H1 H2].
    set (t := Pony.Table _ _).
    assert (∀ m' pk', is_Some (Pony.rows (Pony.table (db w0) m') !! pk') →
                      is_Some (Pony.rows (Pony.table (Pony.set_table (db w0) m t) m')
                                 !! pk')) as Hkeep.
    { intros m' pk' Hsome. destruct (decide (m' = m)) as [->|Hm].
      - rewrite table_set_table. unfold t. cbn [Pony.rows].
        rewrite lookup_insert. by case_decide.
      - by rewrite table_set_table_ne. }
    split; by apply Hkeep.
  - intros m request id field w0 resp w1 Hinv Hadd.
    pose proof (add_keeps_tables _ _ _ _ _ _ _ _ Hadd) as Htab.
    apply add_inv in Hadd
      as (n & model & r0 & fwd & item & vals & vals' & _ & _ & Hlink & Hrow & Hitem & ->).
    cbn [db] in *. intros r p Hp. rewrite !Htab.
    destruct (decide (r = r0)) as [->|Hne].
    + rewrite links_set_links in Hp. apply elem_of_union in Hp as [Hp|Hp].
      * apply elem_of_singleton in Hp as ->. rewrite (link_of_ends _ _ _ _ Hlink).
        destruct fwd; simpl; by rewrite Hrow, Hitem.
      * by apply Hinv.
    + rewrite links_set_links_ne in Hp by done. by apply Hinv.
  - intros m request id w0 resp w1 Hinv (n & vals & _ & _ & _ & ->)%delete_inv.
    cbn [db]. intros r p [Hp Hnot]%links_delete. destruct (Hinv r p Hp) as [H1 H2].
    unfold touches in Hnot. split.
    + rewrite delete_keeps_rows; [done|]. intros [= Hm Hpk]. apply Hnot. by left.
    + rewrite delete_keeps_rows; [done|]. intros [= Hm Hpk]. apply Hnot. by right.
Qed.

Lemma new_named_inv ext m kwargs pk vals :
  m ≠ Person →
  Entity.new ext m kwargs = Return (pk, vals) →
  Forall (λ k, k ∈ Entity.attr_names ext m) (dict_keys kwargs)
  ∧ name_rule kwargs "name"
  ∧ (∀ field target, dict_get (attrs ext m) field = Some (Pony.SetOf target) →
                     no_members kwargs field)
  ∧ ((pk = None ∧ (dict_get kwargs "id" = None ∨ dict_get kwargs "id" = Some VNone))
     ∨ (∃ v n, dict_get kwargs "id" = Some v ∧ Pony.pk_of_key ext v = Return n
               ∧ pk = Some n))
  ∧ ∃ n, dict_get kwargs "name" = Some (VStr n)
         ∧ vals = [("name", VStr (Pony.strip n))].
Proof.
  intros Hm. unfold Entity.new.
  destruct (List.find _ _) as [bad|] eqn:Hfind; [done|].
  apply find_none in Hfind. intros H. split.
  { eapply Forall_impl; [exact Hfind|]. intros k Hk. simpl in Hk.
    by apply bool_decide_eq_false, dec_stable in Hk. }
  destruct m; [done| |]; cbn -[Entity.validate] in H.
  - destruct (Entity.validate ext Group "id" _ _) as [x1|] eqn:H1; [|done].
    destruct (Entity.validate ext Group "name" _ _) as [x2|] eqn:H2; [|done].
    destruct (Entity.validate ext Group "members" _ _) as [x3|] eqn:H3; [|done].
    destruct (Entity.validate ext Group "address_books" _ _) as [x4|] eqn:H4; [|done].
    apply validate_str_spec in H2 as (n & Hn & Hn1 & Hn2 & ->).
    apply validate_set_spec in H3 as [H3 ->].
    apply validate_set_spec in H4 as [H4 ->].
    injection H as <- <-.
    split; [by exists n|]. split.
    { intros field target Hf%dict_get_elem. simpl in Hf.
      rewrite !elem_of_cons, elem_of_nil in Hf.
      destruct Hf as [Hf|[Hf|[Hf|[Hf|[]]]]]; by simplify_eq. }
    apply validate_pk_spec in H1 as [[H1 ->]|(v & k & H1 & _ & Hk & ->)].
    + split; [by left|]. by exists n.
    + split; [right; by exists v, k|]. by exists n.
  - destruct (Entity.validate ext AddressBook "id" _ _) as [x1|] eqn:H1; [|done].
    destruct (Entity.validate ext AddressBook "name" _ _) as [x2|] eqn:H2; [|done].
    destruct (Entity.validate ext AddressBook "people" _ _) as [x3|] eqn:H3; [|done].
    destruct (Entity.validate ext AddressBook "groups" _ _) as [x4|] eqn:H4; [|done].
    apply validate_str_spec in H2 as (n & Hn & Hn1 & Hn2 & ->).
    apply validate_set_spec in H3 as [H3 ->].
    apply validate_set_spec in H4 as [H4 ->].
    injection H as <- <-.
    split; [by exists n|]. split.
    { intros field target Hf%dict_get_elem. simpl in Hf.
      rewrite !elem_of_cons, elem_of_nil in Hf.
      destruct Hf as [Hf|[Hf|[Hf|[Hf|[]]]]]; by simplify_eq. }
    apply validate_pk_spec in H1 as [[H1 ->]|(v & k & H1 & _ & Hk & ->)].
    + split; [by left|]. by exists n.
    + split; [right; by exists v, k|]. by exists n.
Qed.

Lemma new_well_typed ext m kwargs pk vals :
  Entity.new ext m kwargs = Return (pk, vals) → well_typed_row ext m vals.
Proof.
  intros H. destruct (decide (m = Person)) as [->|Hm].
  - apply new_Person_inv in H
      as (_ & (f & Hf & Hf1 & Hf2) & (l & Hl & Hl1 & Hl2) & (es & Hes & Hes1 & Hes2)
          & _ & _ & _ & f' & l' & es' & Hf' & Hl' & Hes' & ->).
    simplify_eq. exists (Pony.strip f), (Pony.strip l), es.
    repeat split; try done; lia.
  - apply new_named_inv in H as (_ & (n & Hn & Hn1 & Hn2) & _ & _ & n' & Hn' & ->);
      [|done].
    simplify_eq. destruct m; [done|..]; exists (Pony.strip n); by repeat split.
Qed.

Lemma well_typed_reachable ext w : reachable ext w → well_typed ext (db w).
Proof.
  apply reachable_db_ind.
  - intros m pk vals H. by destruct m.
  - intros m request w0 resp w1 Hinv
      (kwargs & pk & vals & _ & Hnew & Hfree & Hc & -> & _)%put_inv.
    set (key := default (Entity.next_pk (Pony.table (db w0) m)) pk) in *.
    cbn [db]. intros m' pk' vals' H.
    destruct (decide (m' = m)) as [->|Hm].
    2: { rewrite table_set_table_ne in H by done. by eapply Hinv. }
    rewrite table_set_table in H. cbn [Pony.rows] in H.
    rewrite lookup_insert in H. case_decide; simplify_eq.
    + by eapply new_well_typed.
    + by eapply Hinv.
  - intros m request id field w0 resp w1 Hinv Hadd.
    pose proof (add_keeps_tables _ _ _ _ _ _ _ _ Hadd) as Htab.
    intros m' pk vals H. rewrite Htab in H. by eapply Hinv.
  - intros m request id w0 resp w1 Hinv (n & vals & _ & _ & _ & ->)%delete_inv.
    cbn [db]. intros m' pk vals' H%delete_rows_subset. by eapply Hinv.
Qed.

Lemma key_of_name row n :
  Entity.key_of ["name"] row = Some [n] ↔ dict_get row "name" = Some (VStr n).
Proof.
  unfold Entity.key_of. simpl.
  destruct (dict_get row "name") as [[]|]; simpl; try (split; done).
  split; [by intros [= ->]|by intros [= ->]].
Qed.

(** However the application got there, names stay unique: no two persons
    with the same first and last name, no two groups and no two address
    books with the same name. *)
Theorem names_stay_unique (ext : externals) (w : world) :
  reachable ext w →
  (∀ pk1 pk2 row1 row2 f l,
     Pony.rows (Pony.person (db w)) !! pk1 = Some row1 →
     Pony.rows (Pony.person (db w)) !! pk2 = Some row2 →
     dict_get row1 "fname" = Some (VStr f) → dict_get row1 "lname" = Some (VStr l) →
     dict_get row2 "fname" = Some (VStr f) → dict_get row2 "lname" = Some (VStr l) →
     pk1 = pk2)
  ∧ (∀ m pk1 pk2 row1 row2 n,
       m ≠ Person →
       Pony.rows (Pony.table (db w) m) !! pk1 = Some row1 →
       Pony.rows (Pony.table (db w) m) !! pk2 = Some row2 →
       dict_get row1 "name" = Some (VStr n) → dict_get row2 "name" = Some (VStr n) →
       pk1 = pk2).
Proof.
  intros Hu%unique_rows_reachable. split.
  - intros pk1 pk2 row1 row2 f l H1 H2 Hf1 Hl1 Hf2 Hl2.
    apply (Hu Person ["fname"; "lname"] pk1 pk2 row1 row2 [f; l]);
      try done; [by left|by apply key_of_names..].
  - intros m pk1 pk2 row1 row2 n Hm H1 H2 Hn1 Hn2.
    apply (Hu m ["name"] pk1 pk2 row1 row2 [n]); try done;
      [destruct m; [done|by left..]|by apply key_of_name..].
Qed.

Lemma world_served_reachable : reachable sample_ext world_served.
Proof. unfold world_served. repeat apply reachable_request. constructor. Qed.

Lemma names_stay_unique_witness :
  Pony.rows (Pony.person (db world_served)) !! 1
  = Some [("fname", VStr "Ada"); ("lname", VStr "Lovelace");
          ("emails", VList [VStr "ada@example.com"])]
  ∧ ∀ pk row,
      Pony.rows (Pony.person (db world_served)) !! pk = Some row →
      dict_get row "fname" = Some (VStr "Ada") →
      dict_get row "lname" = Some (VStr "Lovelace") →
      pk = 1.
Proof.
  assert (Pony.rows (Pony.person (db world_served)) !! 1
          = Some [("fname", VStr "Ada"); ("lname", VStr "Lovelace");
                  ("emails", VList [VStr "ada@example.com"])]) as Hada
    by (vm_compute; reflexivity).
  split; [exact Hada|].
  assert (reachable sample_ext world_served) as Hw
    by (unfold world_served; repeat apply reachable_request; constructor).
  intros pk row Hrow Hf Hl.
  apply (proj1 (names_stay_unique sample_ext world_served Hw) pk 1 row _
           "Ada" "Lovelace" Hrow Hada Hf Hl); reflexivity.
Defined.

(** However the application got there, a collection lists only entities
    that exist: the owner and every listed id are keys of rows, and a Get
    of a listed id answers. *)
Theorem listed_ids_exist (ext : externals) (w : world) :
  reachable ext w →
  ∀ m target pk x,
    x ∈ Pony.related (db w) m target pk →
    is_Some (Pony.rows (Pony.table (db w) m) !! pk)
    ∧ is_Some (Pony.rows (Pony.table (db w) target) !! x)
    ∧ ∀ request id, int_ ext id = Return x →
        ∃ body, OhMyRestRouter.get ext target request id w
                = (Return (Response 200 body), w).
Proof.
  intros Hd%no_dangling_reachable m target pk x Hx.
  destruct (Pony.link_of m target) as [[r fwd]|] eqn:Hl.
  2: { rewrite related_no_link in Hx by done. by apply elem_of_nil in Hx. }
  apply (elem_of_related _ _ _ _ _ _ _ Hl) in Hx.
  destruct (Hd r _ Hx) as [H1 H2]. rewrite (link_of_ends _ _ _ _ Hl) in H1, H2.
  assert (is_Some (Pony.rows (Pony.table (db w) m) !! pk)
          ∧ is_Some (Pony.rows (Pony.table (db w) target) !! x)) as [Hm [vals Ht]]
    by (by destruct fwd).
  split; [done|]. split; [by eexists|].
  intros request id Hid. eexists. by apply get_run.
Qed.

Lemma listed_ids_exist_witness :
  Pony.related (db world_linked) AddressBook Person 1 = [1]
  ∧ is_Some (Pony.rows (Pony.table (db world_linked) AddressBook) !! 1)
  ∧ is_Some (Pony.rows (Pony.table (db world_linked) Person) !! 1)
  ∧ ∃ body, OhMyRestRouter.get sample_ext Person (body_request VNone) "1" world_linked
            = (Return (Response 200 body), world_linked).
Proof.
  assert (Pony.related (db world_linked) AddressBook Person 1 = [1]) as Hrel
    by (vm_compute; reflexivity).
  split; [exact Hrel|].
  assert (reachable sample_ext world_linked) as Hw
    by (unfold world_linked; repeat apply reachable_request; constructor).
  assert (1 ∈ Pony.related (db world_linked) AddressBook Person 1) as Hin
    by (rewrite Hrel; left).
  destruct (listed_ids_exist sample_ext world_linked Hw AddressBook Person 1 1 Hin)
    as (H1 & H2 & H3).
  split; [exact H1|]. split; [exact H2|].
  apply (H3 (body_request VNone) "1"). vm_compute. reflexivity.
Defined.

(** However the application got there, every stored row has the shape its
    class declares: a person has non-empty names of at most 255 characters
    and a list of one to ten emails that all pass the address check; a
    group and an address book have such a name. *)
Theorem stored_rows_are_valid (ext : externals) (w : world) :
  reachable ext w →
  ∀ m pk vals,
    Pony.rows (Pony.table (db w) m) !! pk = Some vals → well_typed_row ext m vals.
Proof. apply well_typed_reachable. Qed.

Lemma stored_rows_are_valid_witness :
  Pony.rows (Pony.person (db world_served)) !! 1
  = Some [("fname", VStr "Ada"); ("lname", VStr "Lovelace");
          ("emails", VList [VStr "ada@example.com"])]
  ∧ well_typed_row sample_ext Person
      [("fname", VStr "Ada"); ("lname", VStr "Lovelace");
       ("emails", VList [VStr "ada@example.com"])].
Proof.
  split; [vm_compute; reflexivity|].
  apply (stored_rows_are_valid sample_ext world_served) with (pk := 1);
    [|vm_compute; reflexivity].
  unfold world_served. repeat apply reachable_request. constructor.
Defined.

(** ** Create of a Group or an AddressBook *)







(** ** The answers of the application *)

Lemma handler_return_shape ext e request w resp w' :
  handler_of ext e request w = (Return resp, w') →
  (resp = PyNone ∧ ∃ m, e = Del m) ∨ ∃ body, resp = Response 200 body.
Proof.
  destruct e as [m|m|m|m| | ]; simpl; intros H.
  - destruct (args_from_uri_id_cases (OhMyRestRouter.get ext m) request w)
      as [(id & _ & Heq)|Heq]; rewrite Heq in H; [|done].
    unfold OhMyRestRouter.get in H.
    apply bind_return in H as (n & w0 & _ & H).
    apply bind_return in H as (result & w2 & _ & [= <- _]). right. by eexists.
  - destruct (args_from_uri_id_field_cases (OhMyRestRouter.add ext m) request w)
      as [(id & field & _ & Heq)|Heq]; rewrite Heq in H; [|done].
    unfold OhMyRestRouter.add in H.
    apply bind_return in H as (n & w0 & _ & H).
    destruct (negb _); [done|].
    destruct (Entity.getattr ext m field) as [[name [ | | |model]|]|]; try done.
    apply bind_return in H as (json_data & w1 & _ & H).
    apply bind_return in H as (result & w2 & _ & [= <- _]). right. by eexists.
  - apply put_inv in H as (kwargs & pk & vals & _ & _ & _ & _ & _ & ->).
    right. by eexists.
  - destruct (args_from_uri_id_cases (OhMyRestRouter.delete ext m) request w)
      as [(id & _ & Heq)|Heq]; rewrite Heq in H; [|done].
    apply delete_inv in H as (n & vals & _ & _ & -> & _). left. eauto.
  - unfold find_by_name in H. destruct (negb _); [done|].
    apply bind_return in H as (result & w2 & _ & [= <- _]). right. by eexists.
  - unfold find_by_email in H. destruct (dict_get (GET request) "email"); [|done].
    apply bind_return in H as (result & w2 & _ & [= <- _]). right. by eexists.
Qed.

(** Behind the middleware every request of every route is answered, and
    there are three answers only.  [None] comes from a successful Delete
    and from nothing else.  Status 200 is the handler's own response.
    Status 500 means the handler raised: the body is the message of its
    exception and the database is the one the request found. *)
Theorem every_request_is_answered (ext : externals) (e : endpoint)
    (request : request) (w : world) :
  ∃ resp w',
    error_middleware (handler_of ext e) request w = (Return resp, w')
    ∧ match resp with
      | PyNone => (∃ m, e = Del m) ∧ handler_of ext e request w = (Return PyNone, w')
      | Response status body =>
          (status = 200 ∧ handler_of ext e request w = (Return resp, w'))
          ∨ (status = 500 ∧ db w' = db w
             ∧ ∃ ex w0, handler_of ext e request w = (Raise ex, w0)
                        ∧ body = VDict [("error", VStr (str ex))])
      end.
Proof.
  unfold error_middleware.
  destruct (handler_of ext e request w) as [[resp|ex] w1] eqn:Hrun.
  - exists resp, w1. split; [done|].
    destruct (handler_return_shape _ _ _ _ _ _ Hrun) as [[-> Hdel]|[body ->]].
    + done.
    + left. done.
  - eexists _, _. split; [reflexivity|]. right. split; [done|]. split.
    + cbn [db]. by eapply handler_raise_keeps_db.
    + by exists ex, w1.
Qed.

(** ** The searches list no person twice *)

Lemma NoDup_list_filter {A} (f : A → bool) (l : list A) :
  NoDup l → NoDup (List.filter f l).
Proof.
  induction 1 as [|x l Hx Hl IH]; simpl; [constructor|].
  destruct (f x); [|done]. constructor; [|done].
  intros [Hin _]%list_elem_of_In%filter_In. by apply Hx, list_elem_of_In.
Qed.

Lemma select_NoDup m s : NoDup (Entity.select m s).
Proof.
  unfold Entity.select. apply NoDup_fmap_2.
  - intros [pk1 v1] [pk2 v2] [= -> ->]. done.
  - rewrite merge_sort_Permutation. apply NoDup_map_to_list.
Qed.

Lemma filtered_NoDup ext s (test : Pony.instance → bool) :
  NoDup ((λ person, Entity.to_dict ext s person true)
           <$> List.filter test (Entity.select Person s)).
Proof.
  apply NoDup_fmap_2_strong; [|apply NoDup_list_filter, select_NoDup].
  intros obj1 obj2 [Hin1 _]%list_elem_of_In%filter_In [Hin2 _]%list_elem_of_In%filter_In Heq.
  apply list_elem_of_In, select_spec in Hin1 as [Hm1 Hrow1].
  apply list_elem_of_In, select_spec in Hin2 as [Hm2 Hrow2].
  apply to_dict_pk in Heq; [|congruence].
  destruct obj1 as [m1 pk1 vals1], obj2 as [m2 pk2 vals2]; simpl in *. subst.
  rewrite Hrow1 in Hrow2. by injection Hrow2 as ->.
Qed.

Lemma find_by_name_run ext request w resp w' :
  find_by_name ext request w = (Return resp, w') →
  let fname := dict_get (GET request) "fname" in
  let lname := dict_get (GET request) "lname" in
  w' = w
  ∧ resp = Response 200 (VList (
      (λ person, Entity.to_dict ext (db w) person true)
        <$> List.filter (λ x, (if truthy fname then attr_is "fname" (default "" fname) x
                               else true)
                              && (if truthy lname then attr_is "lname" (default "" lname) x
                                  else true))
                        (Entity.select Person (db w)))).
Proof.
  intros H fname lname. unfold find_by_name in H. fold fname lname in H.
  destruct (negb _); [done|]. revert H.
  unfold_M. simpl. rewrite !filter_if, filter_twice. intros [= <- <-].
  split; [by destruct w|done].
Qed.

Lemma find_by_email_run ext request w resp w' :
  find_by_email ext request w = (Return resp, w') →
  ∃ email, dict_get (GET request) "email" = Some email
    ∧ w' = w
    ∧ resp = Response 200 (VList (
        (λ person, Entity.to_dict ext (db w) person true)
          <$> List.filter (json_contains "emails" email) (Entity.select Person (db w)))).
Proof.
  unfold find_by_email. destruct (dict_get (GET request) "email") as [email|]; [|done].
  unfold_M. simpl. intros [= <- <-]. exists email. split; [done|].
  split; [by destruct w|done].
Qed.

(** A search lists no person twice, whichever of the two it is and whatever
    the database holds: a person whose [emails] holds the address several
    times, or matches both names, is still one element of the response. *)
Theorem search_lists_nobody_twice (ext : externals) (request : request)
    (w w' : world) (ds : list value) :
  find_by_name ext request w = (Return (Response 200 (VList ds)), w')
  ∨ find_by_email ext request w = (Return (Response 200 (VList ds)), w') →
  NoDup ds.
Proof.
  intros [H|H].
  - apply find_by_name_run in H as [_ [= ->]]. apply filtered_NoDup.
  - apply find_by_email_run in H as (email & _ & _ & [= ->]). apply filtered_NoDup.
Qed.

Lemma search_lists_nobody_twice_witness :
  ∃ ds, find_by_email sample_ext (query_request [("email", "ada@example.com")]) world3
        = (Return (Response 200 (VList ds)), world3)
        ∧ NoDup ds.
Proof.
  eexists. split; [vm_compute; reflexivity|].
  apply (search_lists_nobody_twice sample_ext
           (query_request [("email", "ada@example.com")]) world3 world3).
  right. vm_compute. reflexivity.
Defined.

Lemma NoDup_all_equal {A} (l : list A) :
  NoDup l → (∀ x y, x ∈ l → y ∈ l → x = y) → (length l ≤ 1)%nat.
Proof.
  destruct l as [|x [|y l]]; simpl; [lia..|].
  intros Hnd Heq. exfalso. apply NoDup_cons in Hnd as [Hx _]. apply Hx.
  rewrite (Heq x y); [by left|by left|by right; left].
Qed.

(** After any history of requests, a search by both names finds at most
    one person. *)
Theorem full_name_finds_at_most_one (ext : externals) (request : request)
    (w w' : world) (f l : string) (ds : list value) :
  reachable ext w →
  supplied (dict_get (GET request) "fname") f →
  supplied (dict_get (GET request) "lname") l →
  find_by_name ext request w = (Return (Response 200 (VList ds)), w') →
  (length ds ≤ 1)%nat.
Proof.
  intros Hw Hf Hl H. apply find_by_name_run in H as [_ [= ->]].
  rewrite length_fmap. apply NoDup_all_equal; [apply NoDup_list_filter, select_NoDup|].
  pose proof (unique_rows_reachable ext w Hw) as Hu.
  assert (∀ x, x ∈ List.filter
                 (λ x, (if truthy (dict_get (GET request) "fname")
                        then attr_is "fname" (default "" (dict_get (GET request) "fname")) x
                        else true)
                       && (if truthy (dict_get (GET request) "lname")
                           then attr_is "lname"
                                  (default "" (dict_get (GET request) "lname")) x
                           else true))
                 (Entity.select Person (db w)) →
               Pony.i_model x = Person
               ∧ Pony.rows (Pony.person (db w)) !! Pony.i_pk x = Some (Pony.i_vals x)
               ∧ Entity.key_of ["fname"; "lname"] (Pony.i_vals x) = Some [f; l]) as Hin.
  { intros [m pk vals] [Hsel Ht]%list_elem_of_In%filter_In.
    apply list_elem_of_In, select_spec in Hsel as [Hm Hrow]. simpl in Hm, Hrow. subst m.
    split; [done|]. split; [done|]. simpl.
    apply andb_true_iff in Ht as [Ht1 Ht2].
    rewrite truthy_test in Ht1. rewrite truthy_test in Ht2. apply key_of_names. split; [by apply Ht1|by apply Ht2]. }
  intros x y (Hmx & Hrx & Hkx)%Hin (Hmy & Hry & Hky)%Hin.
  assert (Pony.i_pk x = Pony.i_pk y) as Hpk.
  { apply (Hu Person ["fname"; "lname"] _ _ (Pony.i_vals x) (Pony.i_vals y) [f; l]);
      try done. by left. }
  destruct x as [mx pkx vx], y as [my pky vy]; simpl in *. subst.
  rewrite Hrx in Hry. by injection Hry as ->.
Qed.

Lemma full_name_finds_at_most_one_witness :
  ∃ ds, find_by_name sample_ext
          (query_request [("fname", "Ada"); ("lname", "Lovelace")]) world_served
        = (Return (Response 200 (VList ds)), world_served)
        ∧ (length ds ≤ 1)%nat.
Proof.
  eexists. split; [vm_compute; reflexivity|].
  apply (full_name_finds_at_most_one sample_ext
           (query_request [("fname", "Ada"); ("lname", "Lovelace")])
           world_served world_served "Ada" "Lovelace").
  - unfold world_served. repeat apply reachable_request. constructor.
  - split; [reflexivity|discriminate].
  - split; [reflexivity|discriminate].
  - vm_compute. reflexivity.
Defined.

(** ** The routes do not overlap *)

Lemma strip_prefix_spec p s rest : strip_prefix p s = Some rest → s = p +:+ rest.
Proof.
  revert s. induction p as [|a p IH]; intros s H; simpl in H.
  - by injection H as ->.
  - destruct s as [|b s]; [done|].
    destruct (Ascii.eqb_spec a b) as [->|]; [|done].
    apply IH in H as ->. reflexivity.
Qed.

Lemma match_pattern_nil path info :
  match_pattern [] path = Some info → path = "" ∧ info = [].
Proof. destruct path; [|done]. by intros [= <-]. Qed.

Lemma match_pattern_Lit text p path info :
  match_pattern (Lit text :: p) path = Some info →
  ∃ rest, path = text +:+ rest ∧ match_pattern p rest = Some info.
Proof.
  simpl. destruct (strip_prefix text path) as [rest|] eqn:Hs; [|done].
  simpl. intros H. exists rest. split; [by apply strip_prefix_spec|done].
Qed.

Lemma match_pattern_Var name cls p path info :
  match_pattern (Var name cls :: p) path = Some info →
  ∃ c v rest info',
    cls c = true ∧ path = String c (v +:+ rest)
    ∧ match_pattern p rest = Some info' ∧ info = (name, String c v) :: info'.
Proof.
  simpl. destruct (span_spec cls path) as [Hpath Hall].
  destruct (span cls path) as [[|c v] rest]; [done|]. simpl in *.
  destruct (match_pattern p rest) as [info'|] eqn:Hm; [|done]. simpl. intros [= <-].
  apply andb_prop in Hall as [Hc _]. exists c, v, rest, info'.
  split; [exact Hc|]. split; [exact Hpath|done].
Qed.

Ltac invert_match :=
  repeat match goal with
    | H : match_pattern [] _ = Some _ |- _ => apply match_pattern_nil in H as [? ?]
    | H : match_pattern (Lit _ :: _) _ = Some _ |- _ =>
        apply match_pattern_Lit in H as (? & ? & H)
    | H : match_pattern (Var _ _ :: _) _ = Some _ |- _ =>
        apply match_pattern_Var in H as (? & ? & ? & ? & ? & ? & H & ?)
    end.

Lemma setup_app_disjoint r1 r2 path info1 info2 :
  r1 ∈ setup_app → r2 ∈ setup_app →
  route_method r1 = route_method r2 →
  match_pattern (route_pattern r1) path = Some info1 →
  match_pattern (route_pattern r2) path = Some info2 →
  r1 = r2.
Proof.
  intros H1 H2. unfold setup_app in H1, H2.
  repeat (apply elem_of_cons in H1 as [->|H1]); [..|by apply elem_of_nil in H1];
    repeat (apply elem_of_cons in H2 as [->|H2]);
    try (by apply elem_of_nil in H2);
    intros Hm; try reflexivity; try discriminate Hm; clear Hm;
    cbn [route_pattern]; intros Hp1 Hp2; exfalso;
    invert_match; subst;
    repeat match goal with
      | H : _ +:+ _ = _ |- _ => cbn [String.append] in H
      | H : _ = _ +:+ _ |- _ => cbn [String.append] in H
      end;
    simplify_eq; done.
Qed.

Lemma resolve_method routes method path seen r info :
  resolve routes method path seen = Matched r info → route_method r = method.
Proof.
  revert seen. induction routes as [|r' routes IH]; intros seen H; simpl in *.
  - by destruct seen.
  - destruct (match_pattern (route_pattern r') path) as [info'|]; [|by eapply IH].
    destruct (String.eqb_spec (route_method r') method) as [Heq|]; [|by eapply IH].
    by injection H as <- _.
Qed.

Lemma resolve_the_only_match routes method path seen r info :
  r ∈ routes → route_method r = method →
  match_pattern (route_pattern r) path = Some info →
  (∀ r' info', r' ∈ routes → route_method r' = method →
               match_pattern (route_pattern r') path = Some info' → r' = r) →
  resolve routes method path seen = Matched r info.
Proof.
  revert seen. induction routes as [|r0 routes IH]; intros seen Hin Hm Hp Hone.
  - by apply elem_of_nil in Hin.
  - simpl. destruct (match_pattern (route_pattern r0) path) as [info0|] eqn:Hp0.
    + destruct (String.eqb_spec (route_method r0) method) as [Hm0|Hm0].
      * assert (r0 = r) as -> by (by eapply Hone; [left|..]). congruence.
      * apply elem_of_cons in Hin as [->|Hin]; [done|].
        apply IH; try done. intros r' info' Hin'. apply Hone. by right.
    + apply elem_of_cons in Hin as [->|Hin]; [congruence|].
      apply IH; try done. intros r' info' Hin'. apply Hone. by right.
Qed.

(** No request fits two routes: the patterns that [OhMyRestRouter.__init__]
    and [setup_app] register for one method match disjoint sets of paths.
    So a request is given to a route exactly when the method is the
    route's and the path matches the route's pattern, in whatever order the
    routes were registered. *)
Theorem routes_do_not_overlap (method path : string) (r : route)
    (info : list (string * string)) :
  resolve setup_app method path false = Matched r info
  ↔ r ∈ setup_app ∧ route_method r = method
    ∧ match_pattern (route_pattern r) path = Some info.
Proof.
  split.
  - intros H. destruct (resolve_matched _ _ _ _ _ _ H) as [Hin Hp].
    split; [done|]. split; [by eapply resolve_method|done].
  - intros (Hin & Hm & Hp). apply resolve_the_only_match; try done.
    intros r' info' Hin' Hm' Hp'. eapply setup_app_disjoint; try done. congruence.
Qed.

Lemma routes_do_not_overlap_witness :
  resolve setup_app "GET" "/person/find/" false
  = Matched (Route "GET" [Lit "/person/find/"] FindByName "person-find") [].
Proof.
  apply (routes_do_not_overlap "GET" "/person/find/").
  split; [|split; reflexivity].
  unfold setup_app. rewrite !elem_of_app. right; right; right. by left.
Defined.

(** ** What is deleted stays deleted *)

(** After a successful Delete the entity is gone for every later request:
    Get and a second Delete of the same id raise [ObjectNotFound] with the
    message [Model[id]] and leave the world as it is. *)
Theorem deleted_is_not_found (ext : externals) (self : model) (request : request)
    (id : string) (w w' : world) (r : retval) :
  OhMyRestRouter.delete ext self request id w = (Return r, w') →
  ∃ n, int_ ext id = Return n
    ∧ ∀ request',
        OhMyRestRouter.get ext self request' id w'
        = (Raise (Exn ObjectNotFound (Entity.instance_name self n)), w')
        ∧ OhMyRestRouter.delete ext self request' id w'
          = (Raise (Exn ObjectNotFound (Entity.instance_name self n)), w').
Proof.
  intros (n & vals & Hid & Hrow & -> & ->)%delete_inv. exists n. split; [done|].
  assert (Pony.rows (Pony.table (Entity.delete ext self n (db w)).2 self) !! n = None)
    as Hgone.
  { unfold Entity.delete, modify. cbn [snd]. rewrite table_set_table.
    apply lookup_delete_eq. }
  intros request'. split; [by apply get_missing|by apply delete_missing].
Qed.

Lemma deleted_is_not_found_witness :
  ∃ w', OhMyRestRouter.delete sample_ext Person (body_request VNone) "1" world5
        = (Return PyNone, w')
    ∧ OhMyRestRouter.get sample_ext Person (body_request VNone) "1" w'
      = (Raise (Exn ObjectNotFound "Person[1]"), w').
Proof.
  eexists. split; [vm_compute; reflexivity|].
  destruct (deleted_is_not_found sample_ext Person (body_request VNone) "1" world5
              _ PyNone ltac:(vm_compute; reflexivity)) as (n & Hn & H).
  assert (n = 1) as -> by (vm_compute in Hn; congruence).
  exact (proj1 (H (body_request VNone))).
Defined.
